(** * A line-oriented command interpreter: lexer, parser and executor

    Shallow embedding of the CLI interpreter designed in
    [task1/solution.md] (and its later revision with the built-in [ls] and
    [grep]): the token and AST types, the lexing automaton [LexingFSM] of
    the transition graph, the recursive-descent parser of the parser
    flowchart and the executor of the two execution flowcharts. *)

From Stdlib Require Import Ascii String ZArith.
From stdpp Require Import base strings list gmap.

Local Open Scope string_scope.
Local Open Scope list_scope.
Set Warnings "-register-all".

(** ** Results *)

(** Rust's [Result<T, E>]. *)
Inductive Result (T E : Type) : Type :=
| Ok (value : T)
| Err (error : E).
Arguments Ok {T E} value.
Arguments Err {T E} error.

(** ** Tokens *)

Module Tok.

Inductive WordPart : Type :=
| Literal (text : string)
| CmdSubst (text : string)
| ParamSubst (text : string).

Inductive Token : Type :=
| Word (parts : list WordPart)
| PipeOp
| Equal
| Slash
| RedirectLeft
| RedirectRight.

End Tok.

(** ** The lexing automaton *)

Module Lexer.
Import Tok.

Inductive LexerState : Type :=
| Start
| ReadingWord
| ReadingSingleQuote
| ReadingDoubleQuote
| ReadingCmdSubst (depth : nat)
| ReadingParamSubst (depth : nat).

(** The automaton: its state, the text of the fragment being read, whether
    that fragment was begun by a bare [$], the parts of the word being read
    and the tokens emitted so far. *)
Record LexingFSM : Type := MkFSM {
  state : LexerState;
  buffer : string;
  dollar : bool;
  parts : list WordPart;
  tokens : list Token
}.

Definition init : LexingFSM :=
  {| state := Start; buffer := ""; dollar := false; parts := []; tokens := [] |}.

Definition set_state (st : LexerState) (fsm : LexingFSM) : LexingFSM :=
  {| state := st; buffer := buffer fsm; dollar := dollar fsm;
     parts := parts fsm; tokens := tokens fsm |}.

(** *** Character classes *)

(** The double quote character. *)
Definition dquote : ascii := "034"%char.

Definition is_space (c : ascii) : bool :=
  Ascii.eqb c " " || Ascii.eqb c "009".

(** The single-character operators [| = / < >]. *)
Definition operator_token (c : ascii) : option Token :=
  if Ascii.eqb c "|" then Some PipeOp
  else if Ascii.eqb c "=" then Some Equal
  else if Ascii.eqb c "/" then Some Slash
  else if Ascii.eqb c "<" then Some RedirectLeft
  else if Ascii.eqb c ">" then Some RedirectRight
  else None.

Definition is_alpha (c : ascii) : bool :=
  let n := nat_of_ascii c in
  ((65 <=? n)%nat && (n <=? 90)%nat) || ((97 <=? n)%nat && (n <=? 122)%nat)
  || Ascii.eqb c "_".

Definition is_digit (c : ascii) : bool :=
  let n := nat_of_ascii c in (48 <=? n)%nat && (n <=? 57)%nat.

Fixpoint all_chars (p : ascii -> bool) (s : string) : bool :=
  match s with
  | EmptyString => true
  | String c rest => p c && all_chars p rest
  end.

(** Modelled from the spec: the boundary of a valid identifier is missing
    from the design notes; the spec takes ASCII letters, digits and
    underscore, not starting with a digit. *)
Definition valid_identifier (s : string) : bool :=
  match s with
  | EmptyString => false
  | String c rest => is_alpha c && all_chars (fun d => is_alpha d || is_digit d) rest
  end.

(** *** Buffer actions *)

Definition push (c : ascii) (fsm : LexingFSM) : LexingFSM :=
  {| state := state fsm; buffer := buffer fsm +:+ String c EmptyString;
     dollar := dollar fsm; parts := parts fsm; tokens := tokens fsm |}.

(** A finished fragment: one begun by a bare [$] is a [ParamSubst] when the
    text after the [$] is well formed, and an ordinary literal otherwise. *)
Definition fragment_part (dollar : bool) (buf : string) : WordPart :=
  if dollar then
    match buf with
    | String _ name => if valid_identifier name then ParamSubst name else Literal buf
    | EmptyString => Literal buf
    end
  else Literal buf.

Definition flush_fragment (fsm : LexingFSM) : LexingFSM :=
  match buffer fsm with
  | EmptyString =>
      {| state := state fsm; buffer := ""; dollar := false;
         parts := parts fsm; tokens := tokens fsm |}
  | buf =>
      {| state := state fsm; buffer := ""; dollar := false;
         parts := parts fsm ++ [fragment_part (dollar fsm) buf];
         tokens := tokens fsm |}
  end.

(** Ends a pending [$var] fragment and leaves a literal one open. *)
Definition flush_dollar (fsm : LexingFSM) : LexingFSM :=
  if dollar fsm then flush_fragment fsm else fsm.

(** Begins a [$var] fragment: the [$] starts a buffer of its own. *)
Definition begin_dollar (fsm : LexingFSM) : LexingFSM :=
  let f := flush_fragment fsm in
  {| state := state f; buffer := "$"; dollar := true;
     parts := parts f; tokens := tokens f |}.

Definition finalize_word (fsm : LexingFSM) : LexingFSM :=
  let f := flush_fragment fsm in
  match parts f with
  | [] => f
  | ps =>
      {| state := state f; buffer := ""; dollar := false;
         parts := []; tokens := tokens f ++ [Word ps] |}
  end.

Definition emit (tok : Token) (fsm : LexingFSM) : LexingFSM :=
  let f := finalize_word fsm in
  {| state := Start; buffer := ""; dollar := false;
     parts := []; tokens := tokens f ++ [tok] |}.

(** Entering [$(] or [${]: the text read so far is a finished fragment, the
    buffer restarts for the inner text. *)
Definition enter_subst (st : LexerState) (fsm : LexingFSM) : LexingFSM :=
  set_state st (flush_fragment fsm).

(** Closing a substitution: the accumulated text becomes one part of the
    word and the automaton goes back to reading the word. *)
Definition close_subst (mk : string -> WordPart) (fsm : LexingFSM) : LexingFSM :=
  {| state := ReadingWord; buffer := ""; dollar := false;
     parts := parts fsm ++ [mk (buffer fsm)]; tokens := tokens fsm |}.

(** *** Transitions on one character

    One function per group of edges of the transition graph. A bare [$]
    starts a buffer of its own, which runs up to the next quote, blank or
    operator and is then read as a [ParamSubst] or, when it is not of the
    form [$name], as a literal. *)

(** From [Start] and [ReadingWord]: blanks finalize the word, the quotes
    open their states, an operator finalizes the word and is emitted, any
    other character is read into the word. *)
Definition step_word (fsm : LexingFSM) (c : ascii) : LexingFSM :=
  if is_space c then set_state Start (finalize_word fsm)
  else if Ascii.eqb c "'" then set_state ReadingSingleQuote (flush_dollar fsm)
  else if Ascii.eqb c dquote then set_state ReadingDoubleQuote (flush_dollar fsm)
  else match operator_token c with
       | Some tok => emit tok fsm
       | None =>
           if Ascii.eqb c "$" then set_state ReadingWord (begin_dollar fsm)
           else set_state ReadingWord (push c fsm)
       end.

(** From [ReadingSingleQuote]: the closing quote, or any literal. *)
Definition step_single_quote (fsm : LexingFSM) (c : ascii) : LexingFSM :=
  if Ascii.eqb c "'" then set_state ReadingWord fsm
  else push c fsm.

(** From [ReadingDoubleQuote]: the closing quote, a bare [$], or a literal
    (a blank or an operator is literal here, and ends a pending [$name]). *)
Definition step_double_quote (fsm : LexingFSM) (c : ascii) : LexingFSM :=
  if Ascii.eqb c dquote then set_state ReadingWord (flush_dollar fsm)
  else if Ascii.eqb c "$" then begin_dollar fsm
  else if dollar fsm && (is_space c || bool_decide (is_Some (operator_token c)))
       then push c (flush_fragment fsm)
  else push c fsm.

(** From [ReadingCmdSubst(depth)] and [ReadingParamSubst(depth)]: the
    opening delimiter increments the depth, the closing one ends the
    substitution at depth one and decrements the depth otherwise. *)
Definition step_subst (mkstate : nat -> LexerState) (mk : string -> WordPart)
    (open close : ascii) (depth : nat) (fsm : LexingFSM) (c : ascii) : LexingFSM :=
  if Ascii.eqb c open then set_state (mkstate (S depth)) (push c fsm)
  else if Ascii.eqb c close then
    if Nat.eqb depth 1%nat then close_subst mk fsm
    else set_state (mkstate (depth - 1)%nat) (push c fsm)
  else push c fsm.

Definition step (fsm : LexingFSM) (c : ascii) : LexingFSM :=
  match state fsm with
  | Start | ReadingWord => step_word fsm c
  | ReadingSingleQuote => step_single_quote fsm c
  | ReadingDoubleQuote => step_double_quote fsm c
  | ReadingCmdSubst depth => step_subst ReadingCmdSubst CmdSubst "(" ")" depth fsm c
  | ReadingParamSubst depth => step_subst ReadingParamSubst ParamSubst "{" "}" depth fsm c
  end.

(** The states from which the two-character sequences [$(] and [${] open a
    substitution. *)
Definition opens_subst (st : LexerState) : bool :=
  match st with
  | Start | ReadingWord | ReadingDoubleQuote => true
  | _ => false
  end.

(** The substitution state that [c] followed by [d] opens, if any. *)
Definition subst_opener (st : LexerState) (c d : ascii) : option LexerState :=
  if opens_subst st && Ascii.eqb c "$" then
    if Ascii.eqb d "(" then Some (ReadingCmdSubst 1%nat)
    else if Ascii.eqb d "{" then Some (ReadingParamSubst 1%nat)
    else None
  else None.

(** Reads the input character by character, looking one character ahead
    for [$(] and [${]. *)
Fixpoint run (fsm : LexingFSM) (input : string) : LexingFSM :=
  match input with
  | EmptyString => fsm
  | String c rest =>
      match rest with
      | String d rest' =>
          match subst_opener (state fsm) c d with
          | Some st => run (enter_subst st fsm) rest'
          | None => run (step fsm c) rest
          end
      | EmptyString => run (step fsm c) rest
      end
  end.

Inductive LexError : Type :=
| Unterminated (st : LexerState).

(** Modelled from the spec: what the lexer does at the end of the input is
    missing from the transition graph; the spec accepts in [Start], or in
    [ReadingWord] once the pending word is flushed, and fails with a
    [LexError] in every other state. *)
Definition finish (fsm : LexingFSM) : Result (list Token) LexError :=
  match state fsm with
  | Start => Ok (tokens fsm)
  | ReadingWord => Ok (tokens (finalize_word fsm))
  | st => Err (Unterminated st)
  end.

Definition tokenize (line : string) : Result (list Token) LexError :=
  finish (run init line).

(** *** The transition graph *)

(** The graph of the automaton alone: the state entered from [st] on the
    character [c], without the buffers. *)
Definition next_state (st : LexerState) (c : ascii) : LexerState :=
  match st with
  | Start | ReadingWord =>
      if is_space c then Start
      else if Ascii.eqb c "'" then ReadingSingleQuote
      else if Ascii.eqb c dquote then ReadingDoubleQuote
      else if bool_decide (is_Some (operator_token c)) then Start
      else ReadingWord
  | ReadingSingleQuote =>
      if Ascii.eqb c "'" then ReadingWord else ReadingSingleQuote
  | ReadingDoubleQuote =>
      if Ascii.eqb c dquote then ReadingWord else ReadingDoubleQuote
  | ReadingCmdSubst depth =>
      if Ascii.eqb c "(" then ReadingCmdSubst (S depth)
      else if Ascii.eqb c ")" then
        if Nat.eqb depth 1 then ReadingWord else ReadingCmdSubst (depth - 1)
      else ReadingCmdSubst depth
  | ReadingParamSubst depth =>
      if Ascii.eqb c "{" then ReadingParamSubst (S depth)
      else if Ascii.eqb c "}" then
        if Nat.eqb depth 1 then ReadingWord else ReadingParamSubst (depth - 1)
      else ReadingParamSubst depth
  end.

(** The depth counter of a substitution state is at least one. *)
Definition depth_invariant (st : LexerState) : Prop :=
  match st with
  | ReadingCmdSubst depth | ReadingParamSubst depth => 1 <= depth
  | _ => True
  end.

(** The states that read a word outside quotes and substitutions. *)
Definition word_state (st : LexerState) : bool :=
  match st with
  | Start | ReadingWord => true
  | _ => false
  end.

(** The states in which the end of the input is accepted. *)
Definition accepting (st : LexerState) : bool :=
  match st with
  | Start | ReadingWord => true
  | _ => false
  end.

(** A character with no meaning of its own to the lexer. *)
Definition is_plain (c : ascii) : bool :=
  negb (is_space c) && negb (Ascii.eqb c "'") && negb (Ascii.eqb c dquote)
  && negb (Ascii.eqb c "$") && negb (bool_decide (is_Some (operator_token c))).

Definition not_single_quote (c : ascii) : bool := negb (Ascii.eqb c "'").

(** A non-empty run of plain characters. *)
Definition plain_word (w : string) : bool :=
  match w with
  | EmptyString => false
  | _ => all_chars is_plain w
  end.

End Lexer.

(** The token kinds of the spec's data model, which has a kind for the
    append redirection, and the kind of each token of the lexer. *)
Inductive TokenKind : Type :=
| KWord
| KPipeOperator
| KEqual
| KSlash
| KRedirectIn
| KRedirectOut
| KRedirectAppend.

Definition token_kind (tok : Tok.Token) : TokenKind :=
  match tok with
  | Tok.Word _ => KWord
  | Tok.PipeOp => KPipeOperator
  | Tok.Equal => KEqual
  | Tok.Slash => KSlash
  | Tok.RedirectLeft => KRedirectIn
  | Tok.RedirectRight => KRedirectOut
  end.

(** ** The abstract syntax tree *)

Module Ast.

(** A shell word, either a simple literal or a compound (with
    substitutions). *)
Inductive Word : Type :=
| Literal (text : string)
| Compound (parts : list Tok.WordPart).

Inductive RedirectKind : Type :=
| Input
| Output
| Append.

Inductive SubstKind : Type :=
| SubstCommand
| SubstParameter.

Inductive AstNode : Type :=
| Pipeline (commands : list AstNode)
| Command (argv : list Word) (assignments : list AstNode) (redirects : list AstNode)
| Assignment (name : string) (value : option Word)
| Redirect (kind : RedirectKind) (target : Word)
| Substitution (kind : SubstKind) (content : AstNode).

Definition is_command (node : AstNode) : bool :=
  match node with
  | Command _ _ _ => true
  | _ => false
  end.

End Ast.

(** ** The recursive-descent parser *)

Module Parser.
Import Tok.

(** The unexpected token, or [None] at the end of the tokens. [OutOfFuel]
    bounds the loops of the model by the number of tokens and is never
    returned ([construct_ast_total]). *)
Inductive ParseError : Type :=
| Unexpected (tok : option Token)
| OutOfFuel.

Definition ParseResult (T : Type) : Type := Result (T * list Token) ParseError.

Definition unexpected {T : Type} (toks : list Token) : ParseResult T :=
  Err (Unexpected (head toks)).

(** [Single literal?] of the flowchart: one literal part is a
    [Word::Literal], anything else a [Word::Compound]. *)
Definition word_of_parts (ps : list WordPart) : Ast.Word :=
  match ps with
  | [Literal text] => Ast.Literal text
  | _ => Ast.Compound ps
  end.

(** [parse_word()]: the next token must be a word. *)
Definition parse_word (toks : list Token) : ParseResult Ast.Word :=
  match toks with
  | Word ps :: rest => Ok (word_of_parts ps, rest)
  | _ => unexpected toks
  end.

(** [Collect WordParts]: the parts of the word at the front of the tokens,
    with the tokens after it. Slash and equal tokens are part of the word
    ([./cmd], [--key=value]); a word token that follows a word token starts
    the next word, the two having been separated by blanks in the line. *)
Fixpoint collect_word_parts (after_word : bool) (toks : list Token)
    : list WordPart * list Token :=
  match toks with
  | Word ps :: rest =>
      if after_word then ([], toks)
      else let '(qs, rest') := collect_word_parts true rest in (ps ++ qs, rest')
  | Slash :: rest =>
      let '(qs, rest') := collect_word_parts false rest in (Literal "/" :: qs, rest')
  | Equal :: rest =>
      let '(qs, rest') := collect_word_parts false rest in (Literal "=" :: qs, rest')
  | _ => ([], toks)
  end.

Definition parse_word_or_path_with_equal (toks : list Token) : ParseResult Ast.Word :=
  let '(ps, rest) := collect_word_parts false toks in Ok (word_of_parts ps, rest).

(** Modelled from the spec: the rules behind [Check assignment rules] are
    missing from the flowchart; the spec asks for a word that is a simple
    identifier, directly followed by the equal token, before any argument
    word of the command has been accepted. *)
Definition is_assignment (argv : list Ast.Word) (toks : list Token) : bool :=
  match argv, toks with
  | [], Word [Literal name] :: Equal :: _ => Lexer.valid_identifier name
  | _, _ => false
  end.

(** [parse_assignment()]: the name, the expected [=], and the value when a
    word follows. *)
Definition parse_assignment (toks : list Token) : ParseResult Ast.AstNode :=
  match toks with
  | Word [Literal name] :: Equal :: rest =>
      match rest with
      | Word ps :: rest' => Ok (Ast.Assignment name (Some (word_of_parts ps)), rest')
      | _ => Ok (Ast.Assignment name None, rest)
      end
  | Word [Literal name] :: rest => unexpected rest
  | _ => unexpected toks
  end.

(** [parse_redirect()]: the kind, then [parse_word()] as the target. Two
    [>] tokens in a row are the append redirection. *)
Definition parse_redirect (toks : list Token) : ParseResult Ast.AstNode :=
  let target (kind : Ast.RedirectKind) (rest : list Token) : ParseResult Ast.AstNode :=
    match parse_word rest with
    | Ok (w, rest') => Ok (Ast.Redirect kind w, rest')
    | Err e => Err e
    end in
  match toks with
  | RedirectLeft :: rest => target Ast.Input rest
  | RedirectRight :: RedirectRight :: rest => target Ast.Append rest
  | RedirectRight :: rest => target Ast.Output rest
  | _ => unexpected toks
  end.

(** The loop of [parse_command()] on the kind of the next token; it stops
    at a pipe, at the end, and at a token that starts none of its cases. *)
Fixpoint parse_command_loop (fuel : nat) (argv : list Ast.Word)
    (assignments redirects : list Ast.AstNode) (toks : list Token)
    : ParseResult Ast.AstNode :=
  match toks with
  | Word _ :: _ | Slash :: _ =>
      match fuel with
      | O => Err OutOfFuel
      | S fuel' =>
          if is_assignment argv toks then
            match parse_assignment toks with
            | Ok (a, rest) => parse_command_loop fuel' argv (assignments ++ [a]) redirects rest
            | Err e => Err e
            end
          else
            match parse_word_or_path_with_equal toks with
            | Ok (w, rest) => parse_command_loop fuel' (argv ++ [w]) assignments redirects rest
            | Err e => Err e
            end
      end
  | RedirectLeft :: _ | RedirectRight :: _ =>
      match fuel with
      | O => Err OutOfFuel
      | S fuel' =>
          match parse_redirect toks with
          | Ok (r, rest) => parse_command_loop fuel' argv assignments (redirects ++ [r]) rest
          | Err e => Err e
          end
      end
  | _ => Ok (Ast.Command argv assignments redirects, toks)
  end.

Definition parse_command (fuel : nat) (toks : list Token) : ParseResult Ast.AstNode :=
  parse_command_loop fuel [] [] [] toks.

(** The commands of [parse_pipeline()]: one command, and one more after
    each pipe. *)
Fixpoint parse_commands (fuel : nat) (toks : list Token)
    : ParseResult (list Ast.AstNode) :=
  match parse_command (length toks) toks with
  | Err e => Err e
  | Ok (cmd, rest) =>
      match rest with
      | PipeOp :: rest' =>
          match fuel with
          | O => Err OutOfFuel
          | S fuel' =>
              match parse_commands fuel' rest' with
              | Ok (cmds, rest'') => Ok (cmd :: cmds, rest'')
              | Err e => Err e
              end
          end
      | _ => Ok ([cmd], rest)
      end
  end.

(** [commands.len == 1?]: a single command is returned bare. *)
Definition pipeline_node (commands : list Ast.AstNode) : Ast.AstNode :=
  match commands with
  | [cmd] => cmd
  | _ => Ast.Pipeline commands
  end.

Definition parse_pipeline (toks : list Token) : ParseResult Ast.AstNode :=
  match parse_commands (length toks) toks with
  | Ok (cmds, rest) => Ok (pipeline_node cmds, rest)
  | Err e => Err e
  end.

(** [construct_ast(tokens)]: the pipeline, then the end-of-stream check. *)
Definition construct_ast (toks : list Token) : Result Ast.AstNode ParseError :=
  match parse_pipeline toks with
  | Ok (ast, []) => Ok ast
  | Ok (_, tok :: _) => Err (Unexpected (Some tok))
  | Err e => Err e
  end.

End Parser.

(** ** The executor *)

Module Executor.

Abbreviation Env := (gmap string string).

(** What the executor did to the outside world, in order: an external
    process spawned with its environment and standard input ([None] when
    inherited), a built-in command invoked, captured output written to the
    final standard output. *)
Inductive Event : Type :=
| Spawned (name : string) (args : list string) (envs : Env) (stdin : option string)
| Invoked (name : string) (args : list string) (envs : Env) (stdin : option string)
| Wrote (output : string).

(** The executor's own state: [self.env] and the trace of its effects. *)
Record Shell : Type := MkShell {
  env : Env;
  events : list Event
}.

Inductive ExecError : Type :=
| Unimplemented
| EmptyPipeline
| NoCommandWord.

(** The commands wired into the interpreter. *)
Definition builtins : list string := ["pwd"; "cd"; "ls"; "exit"; "grep"].

Definition is_builtin (name : string) : bool :=
  existsb (String.eqb name) builtins.

(** A pipeline stage the loop can run: a command with a command word. *)
Definition has_command_word (stage : Ast.AstNode) : bool :=
  match stage with
  | Ast.Command (_ :: _) _ _ => true
  | _ => false
  end.

Section Execute.

(** The outside world: the output of the interpreter re-entered on the text
    of a command substitution, the output and exit code of an external
    process, and the output, exit code and new environment of a built-in. *)
Variable command_output : string -> Env -> string.
Variable process : string -> list string -> Env -> option string -> string * Z.
Variable builtin : string -> list string -> Env -> option string -> string * Z * Env.

(** The loop of the pipeline flowchart has no exit of its own: every
    iteration ends in [7. Update previous_output and last_exit]. It has no
    branch for a stage without command word either, and what such a stage
    leaves in [previous_output] and [last_exit] is a parameter: it may
    depend on the stage, on [self.env] and on the output of the stage
    before. *)
Variable wordless_stage : Ast.AstNode -> Env -> option string -> option string * Z.

(** Modelled from the spec: the body of [word_to_string] is missing from
    the design notes; the spec renders a literal verbatim, a parameter
    substitution as the value of the variable or the empty string, and a
    command substitution as the captured output of its text. *)
Definition part_to_string (e : Env) (part : Tok.WordPart) : string :=
  match part with
  | Tok.Literal text => text
  | Tok.ParamSubst name => default "" (e !! name)
  | Tok.CmdSubst text => command_output text e
  end.

Definition word_to_string (e : Env) (w : Ast.Word) : string :=
  match w with
  | Ast.Literal text => text
  | Ast.Compound ps => String.concat "" (map (part_to_string e) ps)
  end.

(** [For each AstNode::Assignment]: name, value through [word_to_string],
    set in the environment; left to right. *)
Definition apply_assignment (e : Env) (node : Ast.AstNode) : Env :=
  match node with
  | Ast.Assignment name value =>
      <[name := match value with
                | Some w => word_to_string e w
                | None => ""
                end]> e
  | _ => e
  end.

Definition apply_assignments (assignments : list Ast.AstNode) (e : Env) : Env :=
  fold_left apply_assignment assignments e.

(** [self.run(name, args)]: a built-in runs in the interpreter and may
    change its environment, any other name is spawned as a process with
    [self.env]. *)
Definition run (name : string) (args : list string) (sh : Shell) : Z * Shell :=
  if is_builtin name then
    let '(_, code, e) := builtin name args (env sh) None in
    (code, {| env := e; events := events sh ++ [Invoked name args (env sh) None] |})
  else
    let '(_, code) := process name args (env sh) None in
    (code, {| env := env sh; events := events sh ++ [Spawned name args (env sh) None] |}).

(** One iteration of the pipeline loop: clone the environment and apply the
    assignments to the clone, resolve name and arguments with the clone,
    then spawn the process with the environment of [self.env], or execute
    the built-in with a clone of [self.env]. The loop asks this of the
    stages that have a command word ([NoCommandWord] tells that there is
    no name to resolve); a stage that is not a command is the
    unimplemented error, as at the root. *)
Definition run_stage (self_env : Env) (previous_output : option string)
    (stage : Ast.AstNode) : Result (string * Z * Event) ExecError :=
  match stage with
  | Ast.Command argv assignments _ =>
      let local_env := apply_assignments assignments self_env in
      match argv with
      | [] => Err NoCommandWord
      | w :: ws =>
          let name := word_to_string local_env w in
          let args := map (word_to_string local_env) ws in
          if is_builtin name then
            let '(out, code, _) := builtin name args self_env previous_output in
            Ok (out, code, Invoked name args self_env previous_output)
          else
            let '(out, code) := process name args self_env previous_output in
            Ok (out, code, Spawned name args self_env previous_output)
      end
  | _ => Err Unimplemented
  end.

Fixpoint pipeline_loop (stages : list Ast.AstNode) (previous_output : option string)
    (last_exit : Z) (sh : Shell) : Result (option string * Z) ExecError * Shell :=
  match stages with
  | [] => (Ok (previous_output, last_exit), sh)
  | stage :: rest =>
      match stage with
      | Ast.Command [] _ _ =>
          let '(out, code) := wordless_stage stage (env sh) previous_output in
          pipeline_loop rest out code sh
      | _ =>
          match run_stage (env sh) previous_output stage with
          | Ok (out, code, ev) =>
              pipeline_loop rest (Some out) code
                {| env := env sh; events := events sh ++ [ev] |}
          | Err e => (Err e, sh)
          end
      end
  end.

Definition execute_ast (root : Ast.AstNode) (sh : Shell)
    : Result Z ExecError * Shell :=
  match root with
  | Ast.Command argv assignments _ =>
      let sh1 := {| env := apply_assignments assignments (env sh);
                    events := events sh |} in
      match argv with
      | [] => (Ok 0%Z, sh1)
      | w :: ws =>
          let '(code, sh2) :=
            run (word_to_string (env sh1) w) (map (word_to_string (env sh1)) ws) sh1 in
          (Ok code, sh2)
      end
  | Ast.Pipeline [] => (Err EmptyPipeline, sh)
  | Ast.Pipeline stages =>
      match pipeline_loop stages None 0%Z sh with
      | (Ok (Some out, last_exit), sh') =>
          (Ok last_exit, {| env := env sh'; events := events sh' ++ [Wrote out] |})
      | (Ok (None, last_exit), sh') => (Ok last_exit, sh')
      | (Err e, sh') => (Err e, sh')
      end
  | _ => (Err Unimplemented, sh)
  end.

End Execute.

(** *** A sample world

    A few external programs, to run the executor on concrete lines:
    [true] and [false], [printenv NAME] (the value of the variable in the
    environment of the process, failing when it is unset), [cat] (copies
    its input); any other name is not found. Built-ins do nothing,
    command substitutions are empty, and a stage without command word
    hands on an empty output with exit code 0. *)

Definition sample_process (name : string) (args : list string) (envs : Env)
    (stdin : option string) : string * Z :=
  if String.eqb name "true" then ("", 0%Z)
  else if String.eqb name "false" then ("", 1%Z)
  else if String.eqb name "printenv" then
    match args with
    | [var] =>
        match envs !! var with
        | Some value => (value, 0%Z)
        | None => ("", 1%Z)
        end
    | _ => ("", 2%Z)
    end
  else if String.eqb name "cat" then (default "" stdin, 0%Z)
  else ("", 127%Z).

Definition sample_builtin (name : string) (args : list string) (e : Env)
    (stdin : option string) : string * Z * Env :=
  ("", 0%Z, e).

Definition sample_command_output (text : string) (e : Env) : string := "".

Definition sample_wordless_stage (stage : Ast.AstNode) (e : Env)
    (stdin : option string) : option string * Z :=
  (Some "", 0%Z).

Definition sample_execute : Ast.AstNode -> Shell -> Result Z ExecError * Shell :=
  execute_ast sample_command_output sample_process sample_builtin
    sample_wordless_stage.

Definition empty_shell : Shell := {| env := ∅; events := [] |}.

End Executor.

From stdpp Require Import pretty.

(** ** Nesting of delimiters *)

Module Nesting.

(** The nesting depth after reading [s] from depth [depth], counting [op]
    up and [cl] down; [None] when [s] closes more than is open. *)
Fixpoint depth_after (op cl : ascii) (depth : nat) (s : string) : option nat :=
  match s with
  | EmptyString => Some depth
  | String c rest =>
      if Ascii.eqb c op then depth_after op cl (S depth) rest
      else if Ascii.eqb c cl then
        match depth with
        | O => None
        | S depth' => depth_after op cl depth' rest
        end
      else depth_after op cl depth rest
  end.

(** A text in which every [op] has its [cl] and the other way round. *)
Definition well_nested (op cl : ascii) (s : string) : bool :=
  match depth_after op cl 0 s with
  | Some O => true
  | _ => false
  end.

End Nesting.

(** ** Quotes and substitutions left open

    Following the spec's words, what a line leaves unterminated: a quote
    runs up to the matching quote; [$(] and [${] open a substitution
    outside quotes and inside double quotes; a substitution counts its own
    delimiters and, closed, gives the line back to what was reading the
    enclosing word, which is the double quote when it was opened inside
    one (the spec reads [echo], a double quote, [$(echo hi)] and a double
    quote as one quoted word). This reading remembers the quote around a
    substitution, which the states of the automaton of the design notes do
    not; the two are compared in [LexerFacts]. *)

Module Quoting.
Import Lexer.

Inductive Region : Type :=
| Unquoted
| SingleQuoted
| DoubleQuoted
| CommandSubstitution (quoted : bool) (depth : nat)
| ParameterSubstitution (quoted : bool) (depth : nat).

(** What a closed substitution gives the line back to. *)
Definition enclosing (quoted : bool) : Region :=
  if quoted then DoubleQuoted else Unquoted.

Definition region_step (r : Region) (c : ascii) : Region :=
  match r with
  | Unquoted =>
      if Ascii.eqb c "'" then SingleQuoted
      else if Ascii.eqb c dquote then DoubleQuoted
      else Unquoted
  | SingleQuoted => if Ascii.eqb c "'" then Unquoted else SingleQuoted
  | DoubleQuoted => if Ascii.eqb c dquote then Unquoted else DoubleQuoted
  | CommandSubstitution quoted depth =>
      if Ascii.eqb c "(" then CommandSubstitution quoted (S depth)
      else if Ascii.eqb c ")" then
        if Nat.eqb depth 1 then enclosing quoted
        else CommandSubstitution quoted (depth - 1)
      else r
  | ParameterSubstitution quoted depth =>
      if Ascii.eqb c "{" then ParameterSubstitution quoted (S depth)
      else if Ascii.eqb c "}" then
        if Nat.eqb depth 1 then enclosing quoted
        else ParameterSubstitution quoted (depth - 1)
      else r
  end.

(** The substitution that [c] followed by [d] opens in the region [r]. *)
Definition region_opener (r : Region) (c d : ascii) : option Region :=
  let opened (quoted : bool) :=
    if Ascii.eqb c "$" then
      if Ascii.eqb d "(" then Some (CommandSubstitution quoted 1)
      else if Ascii.eqb d "{" then Some (ParameterSubstitution quoted 1)
      else None
    else None in
  match r with
  | Unquoted => opened false
  | DoubleQuoted => opened true
  | _ => None
  end.

(** The region in which the line ends. *)
Fixpoint scan (r : Region) (line : string) : Region :=
  match line with
  | EmptyString => r
  | String c rest =>
      match rest with
      | String d rest' =>
          match region_opener r c d with
          | Some r' => scan r' rest'
          | None => scan (region_step r c) rest
          end
      | EmptyString => region_step r c
      end
  end.

(** A quote or a substitution is left unterminated at the end of the
    line. *)
Definition left_unterminated (line : string) : bool :=
  match scan Unquoted line with
  | Unquoted => false
  | _ => true
  end.

Definition in_double_quotes (r : Region) : bool :=
  match r with
  | DoubleQuoted => true
  | _ => false
  end.

(** Somewhere in the line a substitution is opened inside double
    quotes. *)
Fixpoint opens_quoted_substitution (r : Region) (line : string) : bool :=
  match line with
  | EmptyString => false
  | String c rest =>
      match rest with
      | String d rest' =>
          match region_opener r c d with
          | Some r' => in_double_quotes r || opens_quoted_substitution r' rest'
          | None => opens_quoted_substitution (region_step r c) rest
          end
      | EmptyString => false
      end
  end.

Definition quoted_substitution (line : string) : bool :=
  opens_quoted_substitution Unquoted line.


End Quoting.

(** ** Configurations and character classes used to state properties *)

Module LexerAux.
Import Tok Lexer.

(** The automaton between two words: [Start], nothing pending, the tokens
    [ts] emitted. *)
Definition between_words (ts : list Token) : LexingFSM :=
  {| state := Start; buffer := ""; dollar := false; parts := []; tokens := ts |}.

(** The automaton [fsm] with the tokens [front] emitted before its own. *)
Definition after_tokens (front : list Token) (fsm : LexingFSM) : LexingFSM :=
  {| state := state fsm; buffer := buffer fsm; dollar := dollar fsm;
     parts := parts fsm; tokens := front ++ tokens fsm |}.

(** Nothing is pending in [Start]: no text, no part of a word. *)
Definition idle_at_start (fsm : LexingFSM) : Prop :=
  state fsm = Start -> buffer fsm = "" /\ dollar fsm = false /\ parts fsm = [].

(** A character that is literal inside double quotes. *)
Definition double_quote_literal (c : ascii) : bool :=
  negb (Ascii.eqb c dquote) && negb (Ascii.eqb c "$").

End LexerAux.

(** ** Shapes of token sequences and of syntax trees *)

Module Shape.

Definition is_pipe (tok : Tok.Token) : bool :=
  match tok with
  | Tok.PipeOp => true
  | _ => false
  end.

(** The number of pipe operators among the tokens. *)
Definition count_pipes (toks : list Tok.Token) : nat :=
  length (filter (fun tok => is_pipe tok = true) toks).

Definition is_assignment_node (node : Ast.AstNode) : bool :=
  match node with
  | Ast.Assignment _ _ => true
  | _ => false
  end.

Definition is_redirect_node (node : Ast.AstNode) : bool :=
  match node with
  | Ast.Redirect _ _ => true
  | _ => false
  end.

(** A command whose assignments are [Assignment] nodes and whose
    redirections are [Redirect] nodes. *)
Definition command_shape (node : Ast.AstNode) : bool :=
  match node with
  | Ast.Command _ assignments redirects =>
      forallb is_assignment_node assignments && forallb is_redirect_node redirects
  | _ => false
  end.

(** A command of that shape, or a pipeline of two or more of them. *)
Definition ast_shape (node : Ast.AstNode) : bool :=
  match node with
  | Ast.Pipeline commands => (2 <=? length commands)%nat && forallb command_shape commands
  | _ => command_shape node
  end.

(** The number of commands of a command or of a pipeline. *)
Definition stage_count (node : Ast.AstNode) : nat :=
  match node with
  | Ast.Pipeline commands => length commands
  | _ => 1
  end.

Definition is_redirect_token (tok : Tok.Token) : bool :=
  match tok with
  | Tok.RedirectLeft | Tok.RedirectRight => true
  | _ => false
  end.

(** The tokens end with the token [op]. *)
Definition ends_with (op : Tok.Token) (toks : list Tok.Token) : Prop :=
  exists front, toks = front ++ [op].

End Shape.

(** ** Assignments and traces of the executor *)

Module ExecutorAux.
Import Executor.

(** The value of an assignment whose right-hand side holds no
    substitution: the empty string for [name=], the text of a literal. *)
Definition literal_value (value : option Ast.Word) : option string :=
  match value with
  | None => Some ""
  | Some (Ast.Literal text) => Some text
  | Some (Ast.Compound _) => None
  end.

Definition literal_assignment (node : Ast.AstNode) : bool :=
  match node with
  | Ast.Assignment _ value => bool_decide (is_Some (literal_value value))
  | _ => true
  end.

(** The value of the last assignment to [name] in the list, if any. *)
Fixpoint last_assigned (name : string) (assignments : list Ast.AstNode) : option string :=
  match assignments with
  | [] => None
  | node :: rest =>
      match last_assigned name rest with
      | Some value => Some value
      | None =>
          match node with
          | Ast.Assignment n value =>
              if String.eqb n name then literal_value value else None
          | _ => None
          end
      end
  end.

Definition event_stdin (ev : Event) : option string :=
  match ev with
  | Spawned _ _ _ stdin | Invoked _ _ _ stdin => stdin
  | Wrote _ => None
  end.

Definition event_envs (ev : Event) : option Env :=
  match ev with
  | Spawned _ _ envs _ | Invoked _ _ envs _ => Some envs
  | Wrote _ => None
  end.

Section Results.

Variable command_output : string -> Env -> string.
Variable process : string -> list string -> Env -> option string -> string * Z.
Variable builtin : string -> list string -> Env -> option string -> string * Z * Env.
Variable wordless_stage : Ast.AstNode -> Env -> option string -> option string * Z.

(** The output and the exit code of the command an event stands for. *)
Definition event_result (ev : Event) : string * Z :=
  match ev with
  | Spawned name args envs stdin => process name args envs stdin
  | Invoked name args envs stdin => fst (builtin name args envs stdin)
  | Wrote _ => ("", 0%Z)
  end.

(** Each event reads what the one before it wrote, the first one reads
    [input]. *)
Fixpoint chained (input : option string) (evs : list Event) : Prop :=
  match evs with
  | [] => True
  | ev :: rest =>
      event_stdin ev = input /\ chained (Some (fst (event_result ev))) rest
  end.

(** The output and exit code at the end of the chain. *)
Fixpoint chain_result (input : option string) (code : Z) (evs : list Event)
    : option string * Z :=
  match evs with
  | [] => (input, code)
  | ev :: rest =>
      chain_result (Some (fst (event_result ev))) (snd (event_result ev)) rest
  end.

(** The call of a stage that has a command word: the name and the
    arguments, resolved in the clone of [e] to which the assignments of the
    stage are applied. *)
Definition stage_call (e : Env) (stage : Ast.AstNode) : option (string * list string) :=
  match stage with
  | Ast.Command (w :: ws) assignments _ =>
      let local_env := apply_assignments command_output assignments e in
      Some (word_to_string command_output local_env w,
            map (word_to_string command_output local_env) ws)
  | _ => None
  end.

(** The event of a call made with the environment [e] and the input
    [stdin]: a built-in is invoked, any other name is spawned. *)
Definition call_event (e : Env) (stdin : option string) (call : string * list string)
    : Event :=
  if is_builtin (fst call) then Invoked (fst call) (snd call) e stdin
  else Spawned (fst call) (snd call) e stdin.

(** [ev] is the call of [stage], made with the environment [e]. *)
Definition runs_stage (e : Env) (stage : Ast.AstNode) (ev : Event) : Prop :=
  exists call, stage_call e stage = Some call
               /\ ev = call_event e (event_stdin ev) call.

(** What a stage of a pipeline run with [self.env = e] on the input
    [input] hands on: the output and the exit code that the outside world
    answers to its call, or what the stage without command word leaves. *)
Definition stage_answer (e : Env) (input : option string) (stage : Ast.AstNode)
    : option string * Z :=
  match stage_call e stage with
  | Some call =>
      (Some (fst (event_result (call_event e input call))),
       snd (event_result (call_event e input call)))
  | None => wordless_stage stage e input
  end.

(** The output that the stages, run from left to right on [input], hand
    over to what follows them. *)
Definition handed_over (e : Env) (input : option string) (stages : list Ast.AstNode)
    : option string :=
  fold_left (fun previous_output stage => fst (stage_answer e previous_output stage))
    stages input.

End Results.

End ExecutorAux.

(** * The microwave oven

    The state diagram of the oven: its seven states, and for each state
    the transitions that leave it, each with the text of its edge. The
    guards read the variables of [Guards] and the position of the door;
    the door is open after [открыть_дверцу] and closed after
    [закрыть_дверцу], and stays as it is on every other edge. *)

Module Microwave.

Inductive State : Type :=
| Ожидание
| Дверца_Открыта
| Выбор_Режима
| Готовка
| Пауза
| Завершено
| Ошибка.

(** The oven: the state of the diagram and the position of the door. *)
Record Oven : Type := MkOven {
  state : State;
  дверца_закрыта : bool
}.

(** The values the guards of the diagram read, besides the door. *)
Record Guards : Type := MkGuards {
  режим_выбран : bool;
  время : nat;
  была_пауза : bool;
  программа_завершена : bool
}.

(** [[*] --> Ожидание], with the note [Дверца закрыта]. *)
Definition initial : Oven := {| state := Ожидание; дверца_закрыта := true |}.

(** An edge when its guard holds. *)
Definition guarded (guard : bool) (edge : string * Oven) : list (string * Oven) :=
  if guard then [edge] else [].

(** The enabled edges that leave the oven [o], in the order of the
    diagram. *)
Definition transitions (g : Guards) (o : Oven) : list (string * Oven) :=
  let d := дверца_закрыта o in
  match state o with
  | Ожидание =>
      [("открыть_дверцу", MkOven Дверца_Открыта false);
       ("показать_ошибку()", MkOven Ошибка d)]
  | Дверца_Открыта =>
      [("закрыть_дверцу / поместил_еду", MkOven Выбор_Режима true)]
      ++ guarded (программа_завершена g && d)
           ("[Программа завершена, дверь закрыта]", MkOven Ожидание d)
      ++ [("показать_ошибку()", MkOven Ошибка d)]
      ++ guarded (была_пауза g) ("закрыть_дверцу [была_пауза]", MkOven Пауза true)
  | Выбор_Режима =>
      [("отмена / сброс_настроек", MkOven Ожидание d)]
      ++ guarded (режим_выбран g && (0 <? время g)%nat)
           ("старт [режим_выбран & время>0] / запустить_таймер()", MkOven Готовка d)
      ++ [("открыть_дверцу", MkOven Дверца_Открыта false)]
  | Готовка =>
      [("пауза() & выключить_магнетрон()", MkOven Пауза d);
       ("открыть_дверцу & выключить_магнетрон()", MkOven Пауза false);
       ("таймер = 0 & сигнал()", MkOven Завершено d);
       ("выключить_магнетрон() & показать_ошибку()", MkOven Ошибка d)]
  | Пауза =>
      guarded (d && (0 <? время g)%nat)
        ("продолжить [дверца_закрыта & время>0] / запустить_таймер()", MkOven Готовка d)
      ++ [("открыть_дверцу", MkOven Дверца_Открыта false);
          ("показать_ошибку()", MkOven Ошибка d)]
  | Завершено =>
      [("сброс / подтверждение", MkOven Ожидание d);
       ("открыть_дверцу", MkOven Дверца_Открыта false)]
  | Ошибка =>
      [("сброс_ошибки / очистить()", MkOven Ожидание d)]
  end.

(** One transition, under some values of the guards. *)
Definition step (o o' : Oven) : Prop :=
  exists g edge, (edge, o') ∈ transitions g o.

(** The ovens reached from the initial one. *)
Definition reachable (o : Oven) : Prop := rtc step initial o.

(** While a mode is chosen and while cooking the door is closed. *)
Definition door_invariant (o : Oven) : Prop :=
  match state o with
  | Выбор_Режима | Готовка => дверца_закрыта o = true
  | _ => True
  end.

(** Values of the guards under which a program can start. *)
Definition some_guards : Guards :=
  {| режим_выбран := true; время := 30; была_пауза := false;
     программа_завершена := false |}.

End Microwave.

(** * The chat server

    The server of the gRPC chat: its table of subscribers, the delivery of
    a message by [Send], and the replay of the history by [Notify]. A
    channel [chan *pb.ChatMessage] is a number, the one of the
    subscription that made it, and the messages waiting in its buffer. *)

Module Chat.

(** ** Protocol messages *)

(** A timestamp: [Seconds] is an int64 and [Nanos] an int32. *)
Record Timestamp : Type := MkTimestamp {
  Seconds : Z;
  Nanos : Z
}.

Record ChatMessage : Type := MkChatMessage {
  Id : string;
  Room : string;
  Sender : string;
  Text : string;
  Ts : option Timestamp
}.

Record SendRequest : Type := MkSendRequest {
  req_Room : string;
  req_Sender : string;
  req_Text : string
}.

Record SendResponse : Type := MkSendResponse {
  resp_Ok : bool;
  resp_Id : string;
  resp_Error : string;
  resp_Ts : option Timestamp
}.

Record SubscribeRequest : Type := MkSubscribeRequest {
  sub_Room : string;
  SinceId : string;
  Since : option Timestamp
}.

(** ** Time, as [time.Unix] and [Time.After] compute it *)

(** Wrap-around of int64 arithmetic. *)
Definition wrap64 (z : Z) : Z := ((z + 2 ^ 63) mod 2 ^ 64 - 2 ^ 63)%Z.

(** Seconds from year 1 to 1970. *)
Definition unixToInternal : Z := 62135596800%Z.

(** A [Time] without monotonic reading: the seconds since year 1 and the
    nanoseconds within the second. *)
Record Time : Type := MkTime {
  ext : Z;
  nsec : Z
}.

(** [time.Unix(sec, nsec)]: nanoseconds outside [0, 1e9) are carried into
    the seconds. *)
Definition Unix (sec nsec : Z) : Time :=
  if ((nsec <? 0) || (10 ^ 9 <=? nsec))%Z then
    let n := (nsec ÷ 10 ^ 9)%Z in
    let sec1 := wrap64 (sec + n) in
    let nsec1 := (nsec - n * 10 ^ 9)%Z in
    if (nsec1 <? 0)%Z then
      {| ext := wrap64 (wrap64 (sec1 - 1) + unixToInternal);
         nsec := (nsec1 + 10 ^ 9)%Z |}
    else {| ext := wrap64 (sec1 + unixToInternal); nsec := nsec1 |}
  else {| ext := wrap64 (sec + unixToInternal); nsec := nsec |}.

(** [t.After(u)]. *)
Definition After (t u : Time) : bool :=
  ((ext u <? ext t) || ((ext t =? ext u) && (nsec u <? nsec t)))%Z.

Definition time_of (ts : Timestamp) : Time := Unix (Seconds ts) (Nanos ts).

(** ** The server *)

(** The capacity of the channel of a subscription: [make(chan, 16)]. *)
Definition capacity : nat := 16.

Record server : Type := Mkserver {
  rooms : gmap string (list ChatMessage);
  subs : gmap string (list nat);
  chans : gmap nat (list ChatMessage)
}.

Definition NewServer : server := {| rooms := ∅; subs := ∅; chans := ∅ |}.

(** [s.subs[room]], [nil] for a room without entry. *)
Definition subscribers (s : server) (room : string) : list nat :=
  default [] (subs s !! room).

Definition buffer (cs : gmap nat (list ChatMessage)) (ch : nat) : list ChatMessage :=
  default [] (cs !! ch).

(** [select { case ch <- msg: default: }]: the message enters the buffer
    of the channel when there is room for it and is dropped otherwise. *)
Definition try_send (msg : ChatMessage) (cs : gmap nat (list ChatMessage)) (ch : nat)
    : gmap nat (list ChatMessage) :=
  if (length (buffer cs ch) <? capacity)%nat
  then <[ch := buffer cs ch ++ [msg]]> cs
  else cs.

(** The message that [Send] builds: [now] is the time of the call;
    [inserted] is [None] for a server without database, [Some None] when
    the insert or the reading of its id failed, and [Some (Some id)] for
    the id of the inserted row. *)
Definition message (now : Timestamp) (inserted : option (option Z))
    (req : SendRequest) : ChatMessage :=
  {| Id := match inserted with
           | Some (Some id) => pretty id
           | _ => ""
           end;
     Room := req_Room req;
     Sender := if String.eqb (req_Sender req) "" then "anonymous" else req_Sender req;
     Text := req_Text req;
     Ts := Some now |}.

(** [Send]: the result is the response, the error, and the server
    afterwards. *)
Definition Send (now : Timestamp) (inserted : option (option Z))
    (req : option SendRequest) (s : server)
    : SendResponse * option string * server :=
  match req with
  | None =>
      ({| resp_Ok := false; resp_Id := ""; resp_Error := "nil request";
          resp_Ts := None |}, Some "nil request", s)
  | Some req =>
      if String.eqb (req_Room req) "" then
        ({| resp_Ok := false; resp_Id := ""; resp_Error := "room required";
            resp_Ts := None |}, None, s)
      else
        let msg := message now inserted req in
        let cs := fold_left (try_send msg) (subscribers s (req_Room req)) (chans s) in
        ({| resp_Ok := true; resp_Id := Id msg; resp_Error := ""; resp_Ts := Ts msg |},
         None,
         {| rooms := rooms s; subs := subs s; chans := cs |})
  end.

(** One call of [Send] after the other. *)
Fixpoint run_sends (calls : list (Timestamp * option (option Z) * SendRequest))
    (s : server) : server :=
  match calls with
  | [] => s
  | (now, inserted, req) :: rest => run_sends rest (Send now inserted (Some req) s).2
  end.

(** The messages of the calls for one room, in the order of the calls. *)
Fixpoint sent_to (room : string)
    (calls : list (Timestamp * option (option Z) * SendRequest)) : list ChatMessage :=
  match calls with
  | [] => []
  | (now, inserted, req) :: rest =>
      if String.eqb (req_Room req) room
      then message now inserted req :: sent_to room rest
      else sent_to room rest
  end.

(** [msg, ok := <-ch] in the loop of [Notify]: the oldest message leaves
    the buffer of the channel; nothing is received from an empty one. *)
Definition receive (ch : nat) (s : server) : option ChatMessage * server :=
  match buffer (chans s) ch with
  | [] => (None, s)
  | m :: rest =>
      (Some m, {| rooms := rooms s; subs := subs s; chans := <[ch := rest]> (chans s) |})
  end.

(** The beginning of [Notify]: the request is checked and the new channel
    [ch] is appended to the subscribers of the room. *)
Definition subscribe (ch : nat) (req : option SubscribeRequest) (s : server)
    : Result server string :=
  match req with
  | None => Err "room required"
  | Some req =>
      if String.eqb (sub_Room req) "" then Err "room required"
      else Ok {| rooms := rooms s;
                 subs := <[sub_Room req := subscribers s (sub_Room req) ++ [ch]]> (subs s);
                 chans := chans s |}
  end.

(** The list without the first occurrence of [ch]. *)
Fixpoint remove_first (ch : nat) (chs : list nat) : list nat :=
  match chs with
  | [] => []
  | c :: rest => if Nat.eqb c ch then rest else c :: remove_first ch rest
  end.

(** [remove()]: the channel leaves the subscribers of the room, and the
    room leaves the table with its last subscriber. *)
Definition remove (room : string) (ch : nat) (s : server) : server :=
  let chs := remove_first ch (subscribers s room) in
  {| rooms := rooms s;
     subs := match chs with
             | [] => delete room (subs s)
             | _ => <[room := chs]> (subs s)
             end;
     chans := chans s |}.

(** The history that [Notify] reads: the rows of the database when there
    is one ([None] for a server without database), and [s.rooms]
    otherwise. *)
Definition history (rows : option (list ChatMessage)) (s : server) (room : string)
    : list ChatMessage :=
  match rows with
  | Some past => past
  | None => default [] (rooms s !! room)
  end.

(** The index after the first message whose id is [since_id], and 0 when
    there is none. *)
Fixpoint start_after (since_id : string) (i : nat) (past : list ChatMessage) : nat :=
  match past with
  | [] => 0
  | m :: rest =>
      if String.eqb (Id m) since_id then S i else start_after since_id (S i) rest
  end.

Definition start_index (req : SubscribeRequest) (past : list ChatMessage) : nat :=
  if String.eqb (SinceId req) "" then 0 else start_after (SinceId req) 0 past.

(** The filter on [req.Since]: without it every message passes; with it a
    message passes when it has a timestamp after it. *)
Definition passes_since (since : option Timestamp) (m : ChatMessage) : bool :=
  match since with
  | None => true
  | Some st =>
      match Ts m with
      | None => false
      | Some ts => After (time_of ts) (time_of st)
      end
  end.

(** The messages of the history that [Notify] hands to [stream.Send], in
    order (it stops at the first one that cannot be sent). *)
Definition replay (req : SubscribeRequest) (past : list ChatMessage) : list ChatMessage :=
  List.filter (passes_since (Since req)) (drop (start_index req past) past).

(** The instant of a timestamp, in nanoseconds since 1970. *)
Definition instant (ts : Timestamp) : Z := (Seconds ts * 10 ^ 9 + Nanos ts)%Z.

(** A timestamp whose fields are in the ranges the comparison of
    [Notify] handles without wrap-around: an int32 for the nanoseconds and
    seconds within 2^62 of 1970. *)
Definition in_range (ts : Timestamp) : Prop :=
  (- 2 ^ 62 <= Seconds ts <= 2 ^ 62 /\ - 2 ^ 31 <= Nanos ts < 2 ^ 31)%Z.

(** What every server of a run satisfies: nothing is stored in [rooms],
    no room is kept without subscribers, no channel subscribes twice to a
    room, and no buffer holds more than its capacity. *)
Definition well_kept (s : server) : Prop :=
  rooms s = ∅
  /\ (forall room, subs s !! room <> Some [])
  /\ (forall room, NoDup (subscribers s room))
  /\ (forall ch, length (buffer (chans s) ch) <= capacity).

(** The servers of a run: [NewServer] and what [Send], the beginning of
    [Notify] with its new, empty channel, the receiving of a message in its
    loop and [remove()] make of it. *)
Inductive running : server -> Prop :=
| running_new : running NewServer
| running_send now inserted req s :
    running s -> running (Send now inserted req s).2
| running_subscribe ch req s s' :
    running s ->
    (forall room, ch ∉ subscribers s room) ->
    buffer (chans s) ch = [] ->
    subscribe ch req s = Ok s' -> running s'
| running_receive ch s :
    running s -> running (receive ch s).2
| running_remove room ch s :
    running s -> running (remove room ch s).

End Chat.

(** * Properties of the lexer *)

Module LexerFacts.
Import Tok Lexer.

Lemma append_cons (c : ascii) (s t : string) :
  String c s +:+ t = String c (s +:+ t).
Proof. reflexivity. Qed.

Lemma append_nil_r (s : string) : s +:+ "" = s.
Proof. induction s as [|c s IH]; [done | by rewrite append_cons, IH]. Qed.

Lemma append_assoc (s t u : string) : (s +:+ t) +:+ u = s +:+ (t +:+ u).
Proof. induction s as [|c s IH]; [done | by rewrite !append_cons, IH]. Qed.

Lemma append_push (s : string) (c : ascii) (t : string) :
  (s +:+ String c "") +:+ t = s +:+ String c t.
Proof. by rewrite append_assoc. Qed.

(** **** The state component of each action *)

Lemma state_flush_fragment fsm : state (flush_fragment fsm) = state fsm.
Proof. unfold flush_fragment. by destruct (buffer fsm). Qed.

Lemma state_flush_dollar fsm : state (flush_dollar fsm) = state fsm.
Proof. unfold flush_dollar. destruct (dollar fsm); [apply state_flush_fragment | done]. Qed.

Lemma state_finalize_word fsm : state (finalize_word fsm) = state fsm.
Proof.
  unfold finalize_word. destruct (parts (flush_fragment fsm)); simpl;
    apply state_flush_fragment.
Qed.

(** The automaton follows the transition graph. *)
Lemma step_state fsm c : state (step fsm c) = next_state (state fsm) c.
Proof.
  unfold step, next_state.
  destruct (state fsm) as [| | | |d|d] eqn:Hst;
    unfold step_word, step_single_quote, step_double_quote, step_subst;
    repeat match goal with
           | |- context [if ?b then _ else _] => destruct b eqn:?
           | |- context [match operator_token ?c with _ => _ end] =>
               destruct (operator_token c) eqn:?
           end; simpl in *;
    rewrite ?state_flush_fragment, ?state_flush_dollar, ?state_finalize_word;
    try done.
Qed.

Lemma string_pair_ind (P : string -> Prop) :
  P "" ->
  (forall c, P (String c "")) ->
  (forall c d s, P s -> P (String d s) -> P (String c (String d s))) ->
  forall s, P s.
Proof.
  intros H0 H1 H2.
  enough (forall s, P s /\ forall c, P (String c s)) as H by (intros s; apply H).
  induction s as [|d s [IHs IHc]]; split; auto.
Qed.

(** Outside the states that open a substitution the automaton reads one
    character at a time. *)
Lemma run_step fsm c rest :
  opens_subst (state fsm) = false ->
  run fsm (String c rest) = run (step fsm c) rest.
Proof.
  intros H. simpl. destruct rest as [|d rest']; [done |].
  unfold subst_opener. by rewrite H.
Qed.

Lemma run_step_not_dollar fsm c rest :
  Ascii.eqb c "$" = false ->
  run fsm (String c rest) = run (step fsm c) rest.
Proof.
  intros H. simpl. destruct rest as [|d rest']; [done |].
  unfold subst_opener. by rewrite H, andb_false_r.
Qed.

Lemma subst_opener_depth st c d st' :
  subst_opener st c d = Some st' -> depth_invariant st'.
Proof.
  unfold subst_opener.
  destruct (opens_subst st && Ascii.eqb c "$"); [|done].
  destruct (Ascii.eqb d "("); [intros [= <-]; simpl; lia |].
  destruct (Ascii.eqb d "{"); [intros [= <-]; simpl; lia | done].
Qed.

Lemma next_state_depth st c :
  depth_invariant st -> depth_invariant (next_state st c).
Proof.
  destruct st as [| | | |d|d]; simpl; intros Hd;
    repeat match goal with
           | |- context [if ?b then _ else _] => destruct b eqn:?
           end; simpl; try done; try lia;
    match goal with H : Nat.eqb _ _ = false |- _ => apply Nat.eqb_neq in H; lia end.
Qed.

Lemma run_depth line :
  forall fsm, depth_invariant (state fsm) -> depth_invariant (state (run fsm line)).
Proof.
  induction line as [|c|c d line IH1 IH2] using string_pair_ind; intros fsm Hd.
  - done.
  - simpl. rewrite step_state. by apply next_state_depth.
  - change (run fsm (String c (String d line)))
      with (match subst_opener (state fsm) c d with
            | Some st => run (enter_subst st fsm) line
            | None => run (step fsm c) (String d line)
            end).
    destruct (subst_opener (state fsm) c d) as [st|] eqn:Hop.
    + apply IH1. unfold enter_subst. simpl. by eapply subst_opener_depth.
    + apply IH2. rewrite step_state. by apply next_state_depth.
Qed.

(** Leaving a substitution state: only on the closing delimiter at depth
    one, to [ReadingWord], with the accumulated text as a new part. *)
Lemma subst_exit mkstate mk op cl d fsm c :
  state fsm = mkstate d ->
  1 <= d ->
  let fsm' := step_subst mkstate mk op cl d fsm c in
  (exists d', state fsm' = mkstate d' /\ 1 <= d' /\
              parts fsm' = parts fsm /\ tokens fsm' = tokens fsm)
  \/ (c = cl /\ d = 1 /\ state fsm' = ReadingWord /\
      parts fsm' = parts fsm ++ [mk (buffer fsm)] /\ tokens fsm' = tokens fsm).
Proof.
  intros Hst Hd. unfold step_subst. simpl.
  destruct (Ascii.eqb c op) eqn:Hop.
  { left. exists (S d). simpl. repeat split; lia. }
  destruct (Ascii.eqb c cl) eqn:Hcl.
  - apply Ascii.eqb_eq in Hcl.
    destruct (Nat.eqb d 1) eqn:Hd1.
    + apply Nat.eqb_eq in Hd1. right. by repeat split.
    + apply Nat.eqb_neq in Hd1. left. exists (d - 1). simpl. repeat split; lia.
  - left. exists d. simpl. by repeat split.
Qed.

(** C3. While the lexer is inside a command or parameter substitution its
    depth counter is at least one, on every input. In such a state it reads
    one character at a time and either stays in a substitution state of the
    same kind, with a depth of at least one and no part or token emitted, or
    it reads the closing delimiter at depth one and goes to [ReadingWord]
    with the accumulated text as one more part of the word. On
    [$(echo $(date))] the inner substitution is consumed as text of the
    outer one: before the last [)] the automaton is at depth one, after it
    the word has the single part [CmdSubst "echo $(date)"]. *)
Theorem substitution_depth_counter :
  (forall line, depth_invariant (state (run init line)))
  /\ (forall fsm c rest d,
        state fsm = ReadingCmdSubst d -> 1 <= d ->
        run fsm (String c rest) = run (step fsm c) rest /\
        ((exists d', state (step fsm c) = ReadingCmdSubst d' /\ 1 <= d' /\
                     parts (step fsm c) = parts fsm /\
                     tokens (step fsm c) = tokens fsm)
         \/ (c = ")"%char /\ d = 1 /\ state (step fsm c) = ReadingWord /\
             parts (step fsm c) = parts fsm ++ [CmdSubst (buffer fsm)] /\
             tokens (step fsm c) = tokens fsm)))
  /\ (forall fsm c rest d,
        state fsm = ReadingParamSubst d -> 1 <= d ->
        run fsm (String c rest) = run (step fsm c) rest /\
        ((exists d', state (step fsm c) = ReadingParamSubst d' /\ 1 <= d' /\
                     parts (step fsm c) = parts fsm /\
                     tokens (step fsm c) = tokens fsm)
         \/ (c = "}"%char /\ d = 1 /\ state (step fsm c) = ReadingWord /\
             parts (step fsm c) = parts fsm ++ [ParamSubst (buffer fsm)] /\
             tokens (step fsm c) = tokens fsm)))
  /\ run init "$(echo $(date)"
     = {| state := ReadingCmdSubst 1; buffer := "echo $(date)"; dollar := false;
          parts := []; tokens := [] |}
  /\ run init "$(echo $(date))"
     = {| state := ReadingWord; buffer := ""; dollar := false;
          parts := [CmdSubst "echo $(date)"]; tokens := [] |}.
Proof.
  split; [| split; [| split; [| split]]].
  - intros line. by apply run_depth.
  - intros fsm c rest d Hst Hd. split.
    + apply run_step. by rewrite Hst.
    + unfold step. rewrite Hst. by apply subst_exit.
  - intros fsm c rest d Hst Hd. split.
    + apply run_step. by rewrite Hst.
    + unfold step. rewrite Hst. by apply subst_exit.
  - reflexivity.
  - reflexivity.
Qed.

(** The graph has one edge out of a substitution, to [ReadingWord], also
    for a substitution opened inside double quotes. *)
Example substitution_in_double_quotes :
  state (run init (String dquote "$(echo hi)")) = ReadingWord
  /\ parts (run init (String dquote "$(echo hi)")) = [CmdSubst "echo hi"].
Proof. split; reflexivity. Qed.

Lemma substitution_depth_counter_witness :
  let fsm := run init "$(echo $(date)" in
  run fsm ")" = run (step fsm ")") ""
  /\ ((exists d', state (step fsm ")") = ReadingCmdSubst d' /\ 1 <= d' /\
                  parts (step fsm ")") = parts fsm /\
                  tokens (step fsm ")") = tokens fsm)
      \/ (")"%char = ")"%char /\ 1 = 1 /\ state (step fsm ")") = ReadingWord /\
          parts (step fsm ")") = parts fsm ++ [CmdSubst (buffer fsm)] /\
          tokens (step fsm ")") = tokens fsm)).
Proof.
  apply (proj1 (proj2 substitution_depth_counter)
           (run init "$(echo $(date)") ")"%char "" 1).
  - reflexivity.
  - lia.
Defined.

(** **** Inside single quotes *)

Lemma dollar_flush_dollar fsm : dollar (flush_dollar fsm) = false.
Proof.
  unfold flush_dollar. destruct (dollar fsm) eqn:Hd; [| done].
  unfold flush_fragment. by destruct (buffer fsm).
Qed.

Lemma run_single_quote s t :
  all_chars not_single_quote s = true ->
  forall fsm,
    state fsm = ReadingSingleQuote ->
    run fsm (s +:+ t)
    = run {| state := ReadingSingleQuote; buffer := buffer fsm +:+ s;
             dollar := dollar fsm; parts := parts fsm; tokens := tokens fsm |} t.
Proof.
  induction s as [|c s IH]; intros Hs fsm Hst.
  - rewrite append_nil_r. destruct fsm; simpl in *; by subst.
  - simpl in Hs. apply andb_prop in Hs as [Hc Hs].
    rewrite append_cons, run_step by (by rewrite Hst).
    unfold step. rewrite Hst. unfold step_single_quote.
    unfold not_single_quote in Hc. apply negb_true_iff in Hc. rewrite Hc.
    rewrite (IH Hs (push c fsm) Hst). simpl. by rewrite append_push.
Qed.

(** C8. A single-quoted region opened while reading a word: every
    character up to the closing quote is appended to the literal text of
    the word, whatever it is ([$], the double quote and [|] included); no
    part and no token is emitted and the word is not broken; the automaton
    stays in [ReadingSingleQuote] until the closing quote returns it to
    [ReadingWord]. *)
Theorem single_quote_is_literal (fsm : LexingFSM) (s rest : string) :
  word_state (state fsm) = true ->
  all_chars not_single_quote s = true ->
  let opened := flush_dollar fsm in
  run fsm (String "'" s)
  = {| state := ReadingSingleQuote; buffer := buffer opened +:+ s; dollar := false;
       parts := parts opened; tokens := tokens opened |}
  /\ run fsm (String "'" (s +:+ String "'" rest))
     = run {| state := ReadingWord; buffer := buffer opened +:+ s; dollar := false;
              parts := parts opened; tokens := tokens opened |} rest.
Proof.
  intros Hw Hs opened.
  assert (Hopen : step fsm "'" = set_state ReadingSingleQuote opened).
  { unfold step. by destruct (state fsm). }
  split.
  - rewrite run_step_not_dollar, Hopen by done.
    rewrite <- (append_nil_r s) at 1.
    rewrite run_single_quote by done. simpl.
    unfold opened. by rewrite dollar_flush_dollar.
  - rewrite run_step_not_dollar, Hopen by done.
    rewrite run_single_quote by done.
    rewrite run_step by done. simpl.
    unfold opened. by rewrite dollar_flush_dollar.
Qed.

Lemma single_quote_is_literal_witness :
  let s := "$(a) ${b} | $c > " +:+ String dquote "d" in
  let opened := flush_dollar init in
  run init (String "'" s)
  = {| state := ReadingSingleQuote; buffer := buffer opened +:+ s; dollar := false;
       parts := parts opened; tokens := tokens opened |}
  /\ run init (String "'" (s +:+ String "'" " e"))
     = run {| state := ReadingWord; buffer := buffer opened +:+ s; dollar := false;
              parts := parts opened; tokens := tokens opened |} " e".
Proof.
  apply (single_quote_is_literal init
           ("$(a) ${b} | $c > " +:+ String dquote "d") " e"); reflexivity.
Defined.

(** **** The end of the input *)

Lemma accepting_false st :
  accepting st = false <->
  st = ReadingSingleQuote \/ st = ReadingDoubleQuote
  \/ (exists d, st = ReadingCmdSubst d) \/ (exists d, st = ReadingParamSubst d).
Proof.
  split.
  - destruct st; simpl; intros H; try done; eauto.
  - intros [-> | [-> | [[d ->] | [d ->]]]]; done.
Qed.











(** [echo 'unterminated)] ends inside the single quote: it fails, and no
    token of [echo] is returned. *)
Example unterminated_single_quote :
  tokenize "echo 'unterminated)" = Err (Unterminated ReadingSingleQuote)
  /\ Quoting.left_unterminated "echo 'unterminated)" = true
  /\ Quoting.quoted_substitution "echo 'unterminated)" = false.
Proof. repeat split; reflexivity. Qed.

(** **** Plain words *)

Lemma is_plain_inv c :
  is_plain c = true ->
  is_space c = false /\ Ascii.eqb c "'" = false /\ Ascii.eqb c dquote = false
  /\ Ascii.eqb c "$" = false /\ operator_token c = None.
Proof.
  unfold is_plain. rewrite !andb_true_iff, !negb_true_iff.
  intros [[[[? ?] ?] ?] Hop]. repeat split; try done.
  apply bool_decide_eq_false in Hop. destruct (operator_token c); [| done].
  exfalso. apply Hop. eauto.
Qed.

Lemma step_plain fsm c :
  word_state (state fsm) = true ->
  is_plain c = true ->
  step fsm c = set_state ReadingWord (push c fsm).
Proof.
  intros Hw (Hsp & Hq & Hdq & Hd & Hop)%is_plain_inv.
  unfold step. destruct (state fsm); try done;
    unfold step_word; by rewrite Hsp, Hq, Hdq, Hop, Hd.
Qed.

Lemma run_plain w rest :
  all_chars is_plain w = true ->
  forall fsm,
    state fsm = ReadingWord ->
    run fsm (w +:+ rest)
    = run {| state := ReadingWord; buffer := buffer fsm +:+ w;
             dollar := dollar fsm; parts := parts fsm; tokens := tokens fsm |} rest.
Proof.
  induction w as [|c w IH]; intros Hw fsm Hst.
  - rewrite append_nil_r. destruct fsm; simpl in *; by subst.
  - simpl in Hw. apply andb_prop in Hw as [Hc Hw].
    destruct (is_plain_inv c Hc) as (_ & _ & _ & Hd & _).
    rewrite append_cons, run_step_not_dollar by done.
    rewrite step_plain by (by rewrite ?Hst).
    rewrite (IH Hw) by done. simpl. by rewrite append_push.
Qed.

(** A plain word read from a state that reads words is the text of the
    fragment being read. *)
Lemma run_plain_word w rest fsm :
  plain_word w = true ->
  word_state (state fsm) = true ->
  run fsm (w +:+ rest)
  = run {| state := ReadingWord; buffer := buffer fsm +:+ w;
           dollar := dollar fsm; parts := parts fsm; tokens := tokens fsm |} rest.
Proof.
  intros Hw Hst. destruct w as [|c w]; [done |].
  simpl in Hw. apply andb_prop in Hw as [Hc Hw].
  destruct (is_plain_inv c Hc) as (_ & _ & _ & Hd & _).
  rewrite append_cons, run_step_not_dollar by done.
  rewrite step_plain by done.
  rewrite (run_plain w rest Hw) by done. simpl. by rewrite append_push.
Qed.

Lemma tokenize_append_redirect cmd file :
  plain_word cmd = true ->
  plain_word file = true ->
  tokenize (cmd +:+ " >> " +:+ file)
  = Ok [Word [Literal cmd]; RedirectRight; RedirectRight; Word [Literal file]].
Proof.
  intros Hcmd Hfile. unfold tokenize.
  rewrite run_plain_word by done.
  change (" >> " +:+ file)
    with (String " " (String ">" (String ">" (String " " file)))).
  rewrite !run_step_not_dollar by done.
  destruct cmd as [|c cmd]; [done |].
  rewrite <- (append_nil_r file).
  rewrite run_plain_word by done.
  destruct file as [|d file]; [done |].
  rewrite append_nil_r. reflexivity.
Qed.

End LexerFacts.

(** * Lines put together

    How the tokens of a line are made of the tokens of its pieces: the
    lexer reads the second piece as it would alone, after the tokens of
    the first. *)

Module LexerCompose.
Import Tok Lexer LexerAux LexerFacts.

(** **** Tokens emitted before *)

Lemma after_tokens_flush_fragment front fsm :
  flush_fragment (after_tokens front fsm) = after_tokens front (flush_fragment fsm).
Proof. unfold flush_fragment. simpl. by destruct (buffer fsm). Qed.

Lemma after_tokens_flush_dollar front fsm :
  flush_dollar (after_tokens front fsm) = after_tokens front (flush_dollar fsm).
Proof.
  unfold flush_dollar. simpl. destruct (dollar fsm); [| done].
  apply after_tokens_flush_fragment.
Qed.

Lemma after_tokens_finalize_word front fsm :
  finalize_word (after_tokens front fsm) = after_tokens front (finalize_word fsm).
Proof.
  unfold finalize_word. rewrite after_tokens_flush_fragment. simpl.
  destruct (parts (flush_fragment fsm)); [done |].
  unfold after_tokens. simpl. by rewrite app_assoc.
Qed.

Lemma after_tokens_emit front tok fsm :
  emit tok (after_tokens front fsm) = after_tokens front (emit tok fsm).
Proof.
  unfold emit. rewrite after_tokens_finalize_word.
  unfold after_tokens. simpl. by rewrite app_assoc.
Qed.

Lemma after_tokens_begin_dollar front fsm :
  begin_dollar (after_tokens front fsm) = after_tokens front (begin_dollar fsm).
Proof. unfold begin_dollar. by rewrite after_tokens_flush_fragment. Qed.

Lemma after_tokens_step front fsm c :
  step (after_tokens front fsm) c = after_tokens front (step fsm c).
Proof.
  unfold step. simpl.
  destruct (state fsm); unfold step_word, step_single_quote, step_double_quote, step_subst;
    simpl;
    repeat match goal with
           | |- context [if ?b then _ else _] => destruct b
           | |- context [match operator_token ?c with _ => _ end] =>
               destruct (operator_token c)
           end;
    rewrite ?after_tokens_finalize_word, ?after_tokens_flush_dollar,
      ?after_tokens_emit, ?after_tokens_begin_dollar, ?after_tokens_flush_fragment;
    reflexivity.
Qed.

Lemma after_tokens_enter_subst front st fsm :
  enter_subst st (after_tokens front fsm) = after_tokens front (enter_subst st fsm).
Proof. unfold enter_subst. by rewrite after_tokens_flush_fragment. Qed.

Lemma after_tokens_run front line :
  forall fsm, run (after_tokens front fsm) line = after_tokens front (run fsm line).
Proof.
  induction line as [| |c d s IH1 IH2] using string_pair_ind; intros fsm.
  - done.
  - simpl. apply after_tokens_step.
  - cbn [run]. cbn [run] in IH2. simpl state.
    destruct (subst_opener (state fsm) c d).
    + rewrite after_tokens_enter_subst. apply IH1.
    + rewrite after_tokens_step. apply IH2.
Qed.

Lemma after_tokens_finish front fsm toks :
  finish fsm = Ok toks -> finish (after_tokens front fsm) = Ok (front ++ toks).
Proof.
  unfold finish. simpl. destruct (state fsm); try done.
  - by intros [= <-].
  - rewrite after_tokens_finalize_word. by intros [= <-].
Qed.

Lemma between_words_after toks : between_words toks = after_tokens toks init.
Proof. unfold between_words, after_tokens. simpl. by rewrite app_nil_r. Qed.

(** **** Nothing is pending in [Start] *)

Lemma finalize_word_idle fsm :
  buffer (finalize_word fsm) = "" /\ dollar (finalize_word fsm) = false
  /\ parts (finalize_word fsm) = [].
Proof.
  unfold finalize_word.
  destruct (parts (flush_fragment fsm)) eqn:Hparts; [| done].
  rewrite Hparts. unfold flush_fragment. by destruct (buffer fsm).
Qed.

Lemma step_idle fsm c : idle_at_start (step fsm c).
Proof.
  unfold idle_at_start. rewrite step_state. unfold step.
  destruct (state fsm); simpl;
    unfold step_word, step_single_quote, step_double_quote, step_subst;
    repeat match goal with
           | |- context [if ?b then _ else _] => destruct b eqn:?
           | |- context [match operator_token ?c with _ => _ end] =>
               destruct (operator_token c) eqn:?
           end;
    simpl; try done; intros _; try apply finalize_word_idle.
Qed.

Lemma run_idle line :
  forall fsm, idle_at_start fsm -> idle_at_start (run fsm line).
Proof.
  induction line as [| |c d s IH1 IH2] using string_pair_ind; intros fsm Hidle.
  - done.
  - simpl. apply step_idle.
  - cbn [run]. cbn [run] in IH2.
    destruct (subst_opener (state fsm) c d) as [st|] eqn:Hopen.
    + apply IH1. intros Hst. unfold enter_subst in Hst. simpl in Hst.
      unfold subst_opener in Hopen.
      destruct (_ && _); [| done].
      destruct (Ascii.eqb d "("); [by injection Hopen as <- |].
      destruct (Ascii.eqb d "{"); [by injection Hopen as <- | done].
    + apply IH2, step_idle.
Qed.

(** **** The end of a piece *)

Lemma subst_opener_other st c d :
  Ascii.eqb d "(" = false -> Ascii.eqb d "{" = false -> subst_opener st c d = None.
Proof. intros H1 H2. unfold subst_opener. rewrite H1, H2. by destruct (_ && _). Qed.

(** A piece followed by a character that opens no substitution is read
    as it is alone. *)
Lemma run_piece s c rest :
  Ascii.eqb c "(" = false -> Ascii.eqb c "{" = false ->
  forall fsm, run fsm (s +:+ String c rest) = run (run fsm s) (String c rest).
Proof.
  intros H1 H2.
  induction s as [|a|a b s IH1 IH2] using string_pair_ind; intros fsm.
  - done.
  - change (String a "" +:+ String c rest) with (String a (String c rest)).
    cbn [run]. by rewrite subst_opener_other.
  - rewrite !append_cons. cbn [run]. rewrite !append_cons in IH2. cbn [run] in IH2.
    destruct (subst_opener (state fsm) a b).
    + apply IH1.
    + destruct (s +:+ String c rest) eqn:Hs.
      * by destruct s.
      * rewrite <- Hs. rewrite <- IH2.
        rewrite Hs. reflexivity.
Qed.

(** After a piece that is a line of its own, a blank leaves the lexer
    between two words with the tokens of the piece emitted. *)
Lemma run_line_blank piece toks :
  tokenize piece = Ok toks ->
  step (run init piece) " " = between_words toks.
Proof.
  unfold tokenize, finish. intros Hfinish.
  assert (Hidle : idle_at_start (run init piece)) by (apply run_idle; by intros _).
  unfold idle_at_start in Hidle.
  destruct (run init piece) as [st buf dol ps ts]. simpl in *.
  destruct st; try done.
  - injection Hfinish as ->.
    destruct Hidle as (-> & -> & ->); [done |]. reflexivity.
  - injection Hfinish as <-. unfold step. simpl. unfold step_word. simpl.
    unfold set_state, between_words.
    by destruct (finalize_word_idle (MkFSM ReadingWord buf dol ps ts)) as (-> & -> & ->).
Qed.

End LexerCompose.

(** * Properties of the parser *)

Module ParserFacts.
Import Tok Parser.

Abbreviation is_command_node := (fun node => Ast.is_command node = true).

Lemma parse_command_loop_command fuel :
  forall argv assignments redirects toks node rest,
    parse_command_loop fuel argv assignments redirects toks = Ok (node, rest) ->
    Ast.is_command node = true.
Proof.
  induction fuel as [|fuel IH]; intros argv assignments redirects toks node rest;
    destruct toks as [|[] toks]; cbn [parse_command_loop];
    try (by intros [= <- _]); try done.
  - destruct (is_assignment argv (Word parts :: toks)).
    + destruct (parse_assignment (Word parts :: toks)) as [[a r]|e]; [apply IH | done].
    + destruct (parse_word_or_path_with_equal (Word parts :: toks)) as [[w r]|e];
        [apply IH | done].
  - destruct (is_assignment argv (Slash :: toks)).
    + destruct (parse_assignment (Slash :: toks)) as [[a r]|e]; [apply IH | done].
    + destruct (parse_word_or_path_with_equal (Slash :: toks)) as [[w r]|e];
        [apply IH | done].
  - destruct (parse_redirect (RedirectLeft :: toks)) as [[a r]|e]; [apply IH | done].
  - destruct (parse_redirect (RedirectRight :: toks)) as [[a r]|e]; [apply IH | done].
Qed.

Lemma parse_commands_commands fuel :
  forall toks cmds rest,
    parse_commands fuel toks = Ok (cmds, rest) ->
    cmds <> [] /\ Forall is_command_node cmds.
Proof.
  induction fuel as [|fuel IH]; intros toks cmds rest; cbn [parse_commands];
    destruct (parse_command (length toks) toks) as [[cmd r]|e] eqn:Hcmd; try done;
    apply parse_command_loop_command in Hcmd.
  - destruct r as [|[] r]; try done; intros [= <- _]; split; by try constructor.
  - destruct r as [|[] r]; try (intros [= <- _]; split; by try constructor).
    destruct (parse_commands fuel r) as [[cmds' r']|e] eqn:Hrest; [| done].
    intros [= <- _]. apply IH in Hrest as [_ Hall]. split; [done | by constructor].
Qed.

(** C5. Whatever [construct_ast] returns was built from a non-empty list of
    [Command] nodes: from exactly one command it is that command itself,
    with no [Pipeline] around it, and otherwise it is a [Pipeline] of these
    commands, at least two of them. No [Pipeline] without commands is ever
    returned. *)
Theorem pipeline_never_empty (toks : list Token) (ast : Ast.AstNode) :
  construct_ast toks = Ok ast ->
  exists cmds,
    parse_commands (length toks) toks = Ok (cmds, [])
    /\ Forall is_command_node cmds
    /\ ((cmds = [ast] /\ Ast.is_command ast = true)
        \/ (ast = Ast.Pipeline cmds /\ 2 <= length cmds)).
Proof.
  unfold construct_ast, parse_pipeline.
  destruct (parse_commands (length toks) toks) as [[cmds rest]|e] eqn:Hcmds; [| done].
  destruct rest as [|tok rest]; [| done]. intros [= <-].
  exists cmds. split; [done |].
  apply parse_commands_commands in Hcmds as [Hne Hall]. split; [done |].
  destruct cmds as [|c [|c' cmds]]; [done | |].
  - left. split; [done |]. by inversion Hall.
  - right. split; [done | simpl; lia].
Qed.

Lemma pipeline_never_empty_witness :
  exists cmds,
    parse_commands 8
      [Word [Literal "cat"]; Word [Literal "file"]; PipeOp;
       Word [Literal "grep"]; Word [Literal "foo"]; PipeOp;
       Word [Literal "wc"]; Word [Literal "-l"]] = Ok (cmds, [])
    /\ Forall is_command_node cmds
    /\ ((cmds = [Ast.Pipeline
                   [Ast.Command [Ast.Literal "cat"; Ast.Literal "file"] [] [];
                    Ast.Command [Ast.Literal "grep"; Ast.Literal "foo"] [] [];
                    Ast.Command [Ast.Literal "wc"; Ast.Literal "-l"] [] []]]
         /\ Ast.is_command
              (Ast.Pipeline
                 [Ast.Command [Ast.Literal "cat"; Ast.Literal "file"] [] [];
                  Ast.Command [Ast.Literal "grep"; Ast.Literal "foo"] [] [];
                  Ast.Command [Ast.Literal "wc"; Ast.Literal "-l"] [] []]) = true)
        \/ (Ast.Pipeline
              [Ast.Command [Ast.Literal "cat"; Ast.Literal "file"] [] [];
               Ast.Command [Ast.Literal "grep"; Ast.Literal "foo"] [] [];
               Ast.Command [Ast.Literal "wc"; Ast.Literal "-l"] [] []]
            = Ast.Pipeline cmds /\ 2 <= length cmds)).
Proof.
  apply (pipeline_never_empty
           [Word [Literal "cat"]; Word [Literal "file"]; PipeOp;
            Word [Literal "grep"]; Word [Literal "foo"]; PipeOp;
            Word [Literal "wc"]; Word [Literal "-l"]]).
  reflexivity.
Defined.

(** **** The fuel of the parser is never exhausted *)

Lemma collect_word_parts_length toks :
  forall after_word ps rest,
    collect_word_parts after_word toks = (ps, rest) -> length rest <= length toks.
Proof.
  induction toks as [|tok toks IH]; intros after_word ps rest; simpl.
  - intros [= _ <-]. done.
  - destruct tok; try (intros [= _ <-]; simpl; lia).
    + destruct after_word; [intros [= _ <-]; simpl; lia |].
      destruct (collect_word_parts true toks) as [qs r] eqn:Hc.
      intros [= _ <-]. apply IH in Hc. lia.
    + destruct (collect_word_parts false toks) as [qs r] eqn:Hc.
      intros [= _ <-]. apply IH in Hc. lia.
    + destruct (collect_word_parts false toks) as [qs r] eqn:Hc.
      intros [= _ <-]. apply IH in Hc. lia.
Qed.

Lemma parse_word_or_path_shorter tok toks w rest :
  match tok with Word _ | Slash => True | _ => False end ->
  parse_word_or_path_with_equal (tok :: toks) = Ok (w, rest) ->
  length rest <= length toks.
Proof.
  unfold parse_word_or_path_with_equal. destruct tok; try done; intros _; simpl.
  - destruct (collect_word_parts true toks) as [qs r] eqn:Hc.
    intros [= _ <-]. by apply collect_word_parts_length in Hc.
  - destruct (collect_word_parts false toks) as [qs r] eqn:Hc.
    intros [= _ <-]. by apply collect_word_parts_length in Hc.
Qed.

Lemma parse_assignment_shorter tok toks a rest :
  parse_assignment (tok :: toks) = Ok (a, rest) -> length rest <= length toks.
Proof.
  unfold parse_assignment, unexpected.
  destruct tok as [[|[] [|]]| | | | |]; try done.
  destruct toks as [|[] [|[] toks]]; try done; intros [= _ <-]; simpl; lia.
Qed.

Lemma parse_redirect_shorter tok toks r rest :
  parse_redirect (tok :: toks) = Ok (r, rest) -> length rest <= length toks.
Proof.
  unfold parse_redirect, parse_word, unexpected.
  destruct tok; try done.
  - destruct toks as [|[] toks]; try done; intros [= _ <-]; simpl; lia.
  - destruct toks as [|[] toks]; try done; try (intros [= _ <-]; simpl; lia).
    destruct toks as [|[] toks]; try done; intros [= _ <-]; simpl; lia.
Qed.

Lemma parse_redirect_error toks e :
  parse_redirect toks = Err e -> e <> OutOfFuel.
Proof.
  unfold parse_redirect, parse_word, unexpected.
  destruct toks as [|[] toks]; try (by intros [= <-]).
  - destruct toks as [|[] toks]; by intros [= <-].
  - destruct toks as [|[] toks]; try (by intros [= <-]).
    destruct toks as [|[] toks]; by intros [= <-].
Qed.

Lemma parse_assignment_error toks e :
  parse_assignment toks = Err e -> e <> OutOfFuel.
Proof.
  unfold parse_assignment, unexpected.
  destruct toks as [|[[|[] [|]]| | | | |] toks]; try (by intros [= <-]).
  destruct toks as [|[] [|[] toks]]; by intros [= <-].
Qed.

Lemma parse_command_loop_total fuel :
  forall toks argv assignments redirects,
    length toks <= fuel ->
    parse_command_loop fuel argv assignments redirects toks <> Err OutOfFuel
    /\ forall node rest,
         parse_command_loop fuel argv assignments redirects toks = Ok (node, rest) ->
         length rest <= length toks.
Proof.
  induction fuel as [|fuel IH]; intros toks argv assignments redirects Hlen.
  { destruct toks; simpl in Hlen; [| lia]. simpl. split; [done |].
    by intros node rest [= _ <-]. }
  destruct toks as [|tok toks]; [simpl; split; [done | by intros ? ? [= _ <-]] |].
  simpl in Hlen.
  destruct tok; cbn [parse_command_loop];
    try (split; [done | by intros ? ? [= _ <-]]).
  - destruct (is_assignment argv (Word parts :: toks)).
    + destruct (parse_assignment (Word parts :: toks)) as [[a r]|e] eqn:Ha.
      * apply parse_assignment_shorter in Ha.
        destruct (IH r argv (assignments ++ [a]) redirects ltac:(lia)) as [H1 H2].
        split; [done |]. intros node rest Hp. apply H2 in Hp. simpl. lia.
      * split; [| done]. intros [= ->]. by apply parse_assignment_error in Ha.
    + destruct (parse_word_or_path_with_equal (Word parts :: toks)) as [[w r]|e] eqn:Hw.
      * apply parse_word_or_path_shorter in Hw; [| done].
        destruct (IH r (argv ++ [w]) assignments redirects ltac:(lia)) as [H1 H2].
        split; [done |]. intros node rest Hp. apply H2 in Hp. simpl. lia.
      * exfalso. revert Hw. unfold parse_word_or_path_with_equal.
        by destruct (collect_word_parts false (Word parts :: toks)).
  - destruct (is_assignment argv (Slash :: toks)) eqn:His.
    { by destruct argv. }
    destruct (parse_word_or_path_with_equal (Slash :: toks)) as [[w r]|e] eqn:Hw.
    + apply parse_word_or_path_shorter in Hw; [| done].
      destruct (IH r (argv ++ [w]) assignments redirects ltac:(lia)) as [H1 H2].
      split; [done |]. intros node rest Hp. apply H2 in Hp. simpl. lia.
    + exfalso. revert Hw. unfold parse_word_or_path_with_equal.
      by destruct (collect_word_parts false (Slash :: toks)).
  - destruct (parse_redirect (RedirectLeft :: toks)) as [[a r]|e] eqn:Hr.
    + apply parse_redirect_shorter in Hr.
      destruct (IH r argv assignments (redirects ++ [a]) ltac:(lia)) as [H1 H2].
      split; [done |]. intros node rest Hp. apply H2 in Hp. simpl. lia.
    + split; [| done]. intros [= ->]. by apply parse_redirect_error in Hr.
  - destruct (parse_redirect (RedirectRight :: toks)) as [[a r]|e] eqn:Hr.
    + apply parse_redirect_shorter in Hr.
      destruct (IH r argv assignments (redirects ++ [a]) ltac:(lia)) as [H1 H2].
      split; [done |]. intros node rest Hp. apply H2 in Hp. simpl. lia.
    + split; [| done]. intros [= ->]. by apply parse_redirect_error in Hr.
Qed.

Lemma parse_commands_total fuel :
  forall toks, length toks <= fuel -> parse_commands fuel toks <> Err OutOfFuel.
Proof.
  induction fuel as [|fuel IH]; intros toks Hlen; cbn [parse_commands];
    destruct (parse_command_loop_total (length toks) toks [] [] [] ltac:(lia))
      as [Hne Hshort];
    fold (parse_command (length toks) toks) in *;
    destruct (parse_command (length toks) toks) as [[cmd r]|e] eqn:Hcmd;
    try (by intros [= ->]); specialize (Hshort _ _ eq_refl).
  - destruct r as [|[] r]; try done. simpl in Hshort. lia.
  - destruct r as [|[] r]; try done. simpl in Hshort.
    specialize (IH r ltac:(lia)).
    by destruct (parse_commands fuel r) as [[cmds r']|[]].
Qed.

(** The parser is total: it returns an AST or reports an unexpected token. *)
Lemma construct_ast_total (toks : list Token) :
  construct_ast toks <> Err OutOfFuel.
Proof.
  unfold construct_ast, parse_pipeline.
  pose proof (parse_commands_total (length toks) toks ltac:(lia)) as H.
  destruct (parse_commands (length toks) toks) as [[cmds [|tok rest]]|e]; try done.
  congruence.
Qed.

End ParserFacts.

(** * The append redirection, from the line to the AST *)

Module AppendRedirect.
Import Tok Parser.

Lemma no_append_token (tok : Token) : token_kind tok <> KRedirectAppend.
Proof. by destruct tok. Qed.

(** C7, as stated, fails. On [cmd >> file] the tokens of the line hold no
    token of the kind [RedirectAppend] of the data model, only two
    [RedirectRight] tokens, and they are the very tokens of
    [cmd > > file], so that the token sequence does not tell the append
    redirection from two output redirections. And not every [file] ends
    up as the target: [parse_redirect] reads its target with
    [parse_word()], one word token, so that [cmd >> /tmp/file] is refused
    at the slash and [cmd >> dir/file] appends to [dir], with [/file] left
    as an argument of the command. *)
Lemma append_token_counterexample :
  Lexer.tokenize "cmd >> file"
  = Ok [Word [Literal "cmd"]; RedirectRight; RedirectRight; Word [Literal "file"]]
  /\ ~ In KRedirectAppend
         (map token_kind
            [Word [Literal "cmd"]; RedirectRight; RedirectRight; Word [Literal "file"]])
  /\ Lexer.tokenize "cmd > > file" = Lexer.tokenize "cmd >> file"
  /\ Lexer.tokenize "cmd >> /tmp/file"
     = Ok [Word [Literal "cmd"]; RedirectRight; RedirectRight;
           Slash; Word [Literal "tmp"]; Slash; Word [Literal "file"]]
  /\ construct_ast
       [Word [Literal "cmd"]; RedirectRight; RedirectRight;
        Slash; Word [Literal "tmp"]; Slash; Word [Literal "file"]]
     = Err (Unexpected (Some Slash))
  /\ Lexer.tokenize "cmd >> dir/file"
     = Ok [Word [Literal "cmd"]; RedirectRight; RedirectRight;
           Word [Literal "dir"]; Slash; Word [Literal "file"]]
  /\ construct_ast
       [Word [Literal "cmd"]; RedirectRight; RedirectRight;
        Word [Literal "dir"]; Slash; Word [Literal "file"]]
     = Ok (Ast.Command [Ast.Literal "cmd"; Ast.Compound [Literal "/"; Literal "file"]] []
             [Ast.Redirect Ast.Append (Ast.Literal "dir")]).
Proof.
  split; [reflexivity |]. split; [| repeat split; reflexivity].
  simpl. intros [H | [H | [H | [H | []]]]]; discriminate H.
Qed.

(** **** The tokens of [cmd >> file] *)

Lemma tokenize_append_line cmd file pre target :
  Lexer.tokenize cmd = Ok pre ->
  Lexer.tokenize file = Ok target ->
  Lexer.tokenize (cmd +:+ " >> " +:+ file)
  = Ok (pre ++ [RedirectRight; RedirectRight] ++ target).
Proof.
  intros Hcmd Hfile. unfold Lexer.tokenize.
  change (" >> " +:+ file)
    with (String " " (String ">" (String ">" (String " " file)))).
  rewrite LexerCompose.run_piece by done.
  rewrite LexerFacts.run_step_not_dollar by done.
  rewrite (LexerCompose.run_line_blank cmd pre Hcmd).
  rewrite !LexerFacts.run_step_not_dollar by done.
  change (Lexer.step
            (Lexer.step (Lexer.step (LexerAux.between_words pre) ">") ">") " ")
    with (LexerAux.between_words ((pre ++ [RedirectRight]) ++ [RedirectRight])).
  rewrite LexerCompose.between_words_after, LexerCompose.after_tokens_run.
  rewrite (LexerCompose.after_tokens_finish _ _ target) by exact Hfile.
  by rewrite <- !app_assoc.
Qed.

(** **** The parser in front of a redirection

    What the parser reads of the tokens of a command is read the same
    when a [>] token follows them. *)

Lemma collect_word_parts_before tail toks :
  forall after_word,
    collect_word_parts after_word (toks ++ RedirectRight :: tail)
    = (fst (collect_word_parts after_word toks),
       snd (collect_word_parts after_word toks) ++ RedirectRight :: tail).
Proof.
  induction toks as [|tok toks IH]; intros after_word; [done |].
  destruct tok; cbn [app collect_word_parts]; try done.
  - destruct after_word; [done |]. rewrite IH.
    by destruct (collect_word_parts true toks).
  - rewrite IH. by destruct (collect_word_parts false toks).
  - rewrite IH. by destruct (collect_word_parts false toks).
Qed.

Lemma parse_word_or_path_before tail toks w rest :
  parse_word_or_path_with_equal toks = Ok (w, rest) ->
  parse_word_or_path_with_equal (toks ++ RedirectRight :: tail)
  = Ok (w, rest ++ RedirectRight :: tail).
Proof.
  unfold parse_word_or_path_with_equal. rewrite collect_word_parts_before.
  destruct (collect_word_parts false toks). by intros [= <- <-].
Qed.

Lemma is_assignment_before tail argv toks :
  is_assignment argv (toks ++ RedirectRight :: tail) = is_assignment argv toks.
Proof.
  destruct argv; [| done].
  destruct toks as [|[[|[] [|]]| | | | |] [|[] toks]]; done.
Qed.

Lemma parse_assignment_before tail toks a rest :
  parse_assignment toks = Ok (a, rest) ->
  parse_assignment (toks ++ RedirectRight :: tail) = Ok (a, rest ++ RedirectRight :: tail).
Proof.
  destruct toks as [|[[|[] [|]]| | | | |] [|[] [|[] toks]]]; simpl; try done;
    by intros [= <- <-].
Qed.

Lemma parse_redirect_before tail toks r rest :
  parse_redirect toks = Ok (r, rest) ->
  parse_redirect (toks ++ RedirectRight :: tail) = Ok (r, rest ++ RedirectRight :: tail).
Proof.
  destruct toks as [|[] [|[] [|[] toks]]]; simpl; try done; by intros [= <- <-].
Qed.

Lemma parse_command_loop_before ps fuel :
  forall fuel' argv assignments redirects toks argv' assignments' redirects',
    fuel < fuel' ->
    parse_command_loop fuel argv assignments redirects toks
    = Ok (Ast.Command argv' assignments' redirects', []) ->
    parse_command_loop fuel' argv assignments redirects
      (toks ++ [RedirectRight; RedirectRight; Word ps])
    = Ok (Ast.Command argv' assignments'
            (redirects' ++ [Ast.Redirect Ast.Append (word_of_parts ps)]), []).
Proof.
  induction fuel as [|fuel IH];
    intros fuel' argv assignments redirects toks argv' assignments' redirects' Hfuel;
    (destruct fuel' as [|fuel']; [lia |]);
    destruct toks as [|tok toks].
  - intros [= <- <- <-]. cbn. by destruct fuel'.
  - destruct tok; cbn [parse_command_loop]; done.
  - intros [= <- <- <-]. cbn. by destruct fuel'.
  - assert (Hlt : fuel < fuel') by lia.
    destruct tok; cbn [app parse_command_loop]; try done.
    + change (Word parts :: toks ++ ?tail) with ((Word parts :: toks) ++ tail).
      rewrite is_assignment_before.
      destruct (is_assignment argv (Word parts :: toks)).
      * destruct (parse_assignment (Word parts :: toks)) as [[a rest]|e] eqn:Hparse;
          [| done].
        intros Hloop.
        rewrite (parse_assignment_before [RedirectRight; Word ps] (Word parts :: toks) a rest Hparse).
        by apply IH.
      * destruct (parse_word_or_path_with_equal (Word parts :: toks))
          as [[w rest]|e] eqn:Hparse; [| done].
        intros Hloop.
        rewrite (parse_word_or_path_before [RedirectRight; Word ps] (Word parts :: toks) w rest Hparse).
        by apply IH.
    + change (Slash :: toks ++ ?tail) with ((Slash :: toks) ++ tail).
      rewrite is_assignment_before.
      destruct (is_assignment argv (Slash :: toks)).
      * destruct (parse_assignment (Slash :: toks)) as [[a rest]|e] eqn:Hparse;
          [| done].
        intros Hloop.
        rewrite (parse_assignment_before [RedirectRight; Word ps] (Slash :: toks) a rest Hparse).
        by apply IH.
      * destruct (parse_word_or_path_with_equal (Slash :: toks))
          as [[w rest]|e] eqn:Hparse; [| done].
        intros Hloop.
        rewrite (parse_word_or_path_before [RedirectRight; Word ps] (Slash :: toks) w rest Hparse).
        by apply IH.
    + change (RedirectLeft :: toks ++ ?tail) with ((RedirectLeft :: toks) ++ tail).
      destruct (parse_redirect (RedirectLeft :: toks)) as [[r rest]|e] eqn:Hparse;
        [| done].
      intros Hloop.
      rewrite (parse_redirect_before [RedirectRight; Word ps] (RedirectLeft :: toks) r rest Hparse).
      by apply IH.
    + change (RedirectRight :: toks ++ ?tail) with ((RedirectRight :: toks) ++ tail).
      destruct (parse_redirect (RedirectRight :: toks)) as [[r rest]|e] eqn:Hparse;
        [| done].
      intros Hloop.
      rewrite (parse_redirect_before [RedirectRight; Word ps] (RedirectRight :: toks) r rest Hparse).
      by apply IH.
Qed.

Lemma parse_commands_unfold fuel toks :
  parse_commands fuel toks
  = match parse_command (length toks) toks with
    | Err e => Err e
    | Ok (cmd, rest) =>
        match rest with
        | PipeOp :: rest' =>
            match fuel with
            | O => Err OutOfFuel
            | S fuel' =>
                match parse_commands fuel' rest' with
                | Ok (cmds, rest'') => Ok (cmd :: cmds, rest'')
                | Err e => Err e
                end
            end
        | _ => Ok ([cmd], rest)
        end
    end.
Proof. by destruct fuel. Qed.

(** A line that parses to a command is one command up to its end. *)
Lemma construct_ast_command toks argv assignments redirects :
  construct_ast toks = Ok (Ast.Command argv assignments redirects) ->
  parse_command (length toks) toks = Ok (Ast.Command argv assignments redirects, []).
Proof.
  unfold construct_ast, parse_pipeline. rewrite parse_commands_unfold.
  destruct (parse_command (length toks) toks) as [[cmd rest]|e]; [| done].
  destruct rest as [|tok rest].
  - by intros [= ->].
  - destruct tok; try done.
    destruct (length toks) as [|fuel]; [done |].
    destruct (parse_commands fuel rest) as [[cmds rest']|e] eqn:Hrest; [| done].
    destruct rest'; [| done].
    apply ParserFacts.parse_commands_commands in Hrest as [Hne _].
    by destruct cmds.
Qed.

Lemma construct_ast_append toks ps argv assignments redirects :
  construct_ast toks = Ok (Ast.Command argv assignments redirects) ->
  construct_ast (toks ++ [RedirectRight; RedirectRight; Word ps])
  = Ok (Ast.Command argv assignments
          (redirects ++ [Ast.Redirect Ast.Append (word_of_parts ps)])).
Proof.
  intros Hcmd%construct_ast_command.
  unfold construct_ast, parse_pipeline. rewrite parse_commands_unfold.
  unfold parse_command in *.
  rewrite (parse_command_loop_before ps (length toks) _ [] [] [] toks
             argv assignments redirects); [done | | done].
  rewrite length_app. simpl. lia.
Qed.

(** C7, amended. For a line [cmd >> file] whose [cmd] is a command of its
    own (it is lexed, and its tokens parse to a [Command]) and whose
    [file] is lexed as one word token: the tokens of the line are those of
    [cmd], two [RedirectRight] tokens in a row and the word (no token is
    of an append kind: the token type has none), and the parser merges the
    two tokens: the AST is the [Command] of [cmd] with one more
    redirection, the last, of kind [Append] and with the word of [file] as
    target. For a [cmd] without redirections it is the only one. *)
Theorem append_redirect_by_parser
    (cmd file : string) (pre : list Token) (ps : list WordPart)
    (argv : list Ast.Word) (assignments redirects : list Ast.AstNode) :
  Lexer.tokenize cmd = Ok pre ->
  construct_ast pre = Ok (Ast.Command argv assignments redirects) ->
  Lexer.tokenize file = Ok [Word ps] ->
  let toks := pre ++ [RedirectRight; RedirectRight; Word ps] in
  Lexer.tokenize (cmd +:+ " >> " +:+ file) = Ok toks
  /\ (forall tok, In tok toks -> token_kind tok <> KRedirectAppend)
  /\ construct_ast toks
     = Ok (Ast.Command argv assignments
             (redirects ++ [Ast.Redirect Ast.Append (word_of_parts ps)])).
Proof.
  intros Hcmd Hparse Hfile toks. split; [| split].
  - by apply tokenize_append_line.
  - intros tok _. apply no_append_token.
  - by apply construct_ast_append.
Qed.

Lemma append_redirect_by_parser_witness :
  let toks :=
    [Word [Literal "A"]; Equal; Word [Literal "1"]; Slash; Word [Literal "bin"];
     Slash; Word [Literal "echo"]; Word [Literal "two words"]]
    ++ [RedirectRight; RedirectRight; Word [Literal "out"; ParamSubst "HOME"]] in
  Lexer.tokenize ("A=1 /bin/echo 'two words'" +:+ " >> " +:+ "out${HOME}") = Ok toks
  /\ (forall tok, In tok toks -> token_kind tok <> KRedirectAppend)
  /\ construct_ast toks
     = Ok (Ast.Command
             [Ast.Compound [Literal "/"; Literal "bin"; Literal "/"; Literal "echo"];
              Ast.Literal "two words"]
             [Ast.Assignment "A" (Some (Ast.Literal "1"))]
             ([] ++ [Ast.Redirect Ast.Append
                       (word_of_parts [Literal "out"; ParamSubst "HOME"])])).
Proof.
  apply (append_redirect_by_parser "A=1 /bin/echo 'two words'" "out${HOME}");
    reflexivity.
Defined.

End AppendRedirect.

(** * Properties of the executor *)

Module ExecutorFacts.
Import Executor ExecutorAux.

Section Facts.

Variable command_output : string -> Env -> string.
Variable process : string -> list string -> Env -> option string -> string * Z.
Variable builtin : string -> list string -> Env -> option string -> string * Z * Env.
Variable wordless_stage : Ast.AstNode -> Env -> option string -> option string * Z.

Abbreviation run_stage := (Executor.run_stage command_output process builtin).
Abbreviation pipeline_loop :=
  (Executor.pipeline_loop command_output process builtin wordless_stage).
Abbreviation execute_ast :=
  (Executor.execute_ast command_output process builtin wordless_stage).
Abbreviation apply_assignments := (Executor.apply_assignments command_output).
Abbreviation stage_answer :=
  (ExecutorAux.stage_answer command_output process builtin wordless_stage).
Abbreviation handed_over :=
  (ExecutorAux.handed_over command_output process builtin wordless_stage).

(** One iteration of the loop on a stage that is a command: the answer of
    the stage is handed on, and [self.env] is left as it was. *)
Lemma pipeline_loop_command stage rest previous_output last_exit sh :
  Ast.is_command stage = true ->
  exists evs,
    pipeline_loop (stage :: rest) previous_output last_exit sh
    = pipeline_loop rest (fst (stage_answer (env sh) previous_output stage))
        (snd (stage_answer (env sh) previous_output stage))
        {| env := env sh; events := events sh ++ evs |}.
Proof.
  destruct stage as [|[|w ws] assignments redirects| | |]; try done. intros _.
  - exists []. cbn [Executor.pipeline_loop].
    unfold ExecutorAux.stage_answer. cbn [stage_call].
    destruct (wordless_stage _ _ _) as [out code]. simpl.
    rewrite app_nil_r. by destruct sh.
  - cbn [Executor.pipeline_loop]. unfold Executor.run_stage.
    unfold ExecutorAux.stage_answer, call_event. cbn [stage_call fst snd].
    destruct (is_builtin _).
    + simpl. destruct (builtin _ _ _ _) as [[out code] e]. simpl. eauto.
    + simpl. destruct (process _ _ _ _) as [out code]. simpl. eauto.
Qed.

(** No stage of a pipeline of commands aborts the loop, whatever its exit
    code: the loop ends with what its stages hand on, one after the
    other. *)
Lemma pipeline_loop_commands stages :
  Forall (fun stage => Ast.is_command stage = true) stages ->
  forall previous_output last_exit sh,
    exists evs,
      pipeline_loop stages previous_output last_exit sh
      = (Ok (fold_left (fun handed stage => stage_answer (env sh) (fst handed) stage)
               stages (previous_output, last_exit)),
         {| env := env sh; events := events sh ++ evs |}).
Proof.
  induction 1 as [|stage stages Hstage _ IH]; intros previous_output last_exit sh.
  - exists []. simpl. rewrite app_nil_r. by destruct sh.
  - destruct (pipeline_loop_command stage stages previous_output last_exit sh Hstage)
      as (evs & ->).
    destruct (IH (fst (stage_answer (env sh) previous_output stage))
                (snd (stage_answer (env sh) previous_output stage))
                {| env := env sh; events := events sh ++ evs |})
      as (evs' & ->).
    exists (evs ++ evs'). cbn [env events fold_left fst]. rewrite <- app_assoc.
    by destruct (stage_answer (env sh) previous_output stage).
Qed.

Lemma handed_over_fold e stages :
  forall previous_output last_exit,
    fst (fold_left (fun handed stage => stage_answer e (fst handed) stage)
           stages (previous_output, last_exit))
    = handed_over e previous_output stages.
Proof.
  unfold ExecutorAux.handed_over.
  induction stages as [|stage stages IH]; intros previous_output last_exit; [done |].
  simpl. destruct (stage_answer e previous_output stage) as [out code] eqn:Hanswer.
  apply IH.
Qed.

(** C2. A pipeline of two or more commands returns the exit code of its
    last stage, whatever the exit codes of the stages before it: the
    result is the exit code that the outside world answers to the call of
    the last stage (or what a last stage without command word leaves), run
    with [self.env] on the output that the stages before it, run from left
    to right, hand over. No exit code of an earlier stage aborts the
    pipeline or enters the result. *)
Theorem pipeline_exit_code_is_last
    (stages : list Ast.AstNode) (last : Ast.AstNode) (sh : Shell) :
  stages <> [] ->
  Forall (fun stage => Ast.is_command stage = true) (stages ++ [last]) ->
  fst (execute_ast (Ast.Pipeline (stages ++ [last])) sh)
  = Ok (snd (stage_answer (env sh) (handed_over (env sh) None stages) last)).
Proof.
  intros Hne Hall.
  destruct (pipeline_loop_commands (stages ++ [last]) Hall None 0%Z sh) as (evs & Hloop).
  rewrite fold_left_app in Hloop. cbn [fold_left] in Hloop.
  rewrite handed_over_fold in Hloop.
  destruct stages as [|stage stages]; [done |].
  cbn [app Executor.execute_ast]. cbn [app] in Hloop. rewrite Hloop.
  by destruct (stage_answer _ _ _) as [[out|] code].
Qed.

(** C9. A command without a command word: the assignments are applied,
    the exit code is 0, and nothing is resolved or run (the trace of
    effects is the one before the command). *)
Theorem pure_assignment_returns_zero
    (assignments redirects : list Ast.AstNode) (sh : Shell) :
  execute_ast (Ast.Command [] assignments redirects) sh
  = (Ok 0%Z, {| env := apply_assignments assignments (env sh); events := events sh |}).
Proof. reflexivity. Qed.

(** C10. Only [Command] and [Pipeline] roots are executed: an
    [Assignment], a [Redirect] or a [Substitution] at the root is the
    unimplemented error, and a [Pipeline] without stages is the empty
    pipeline error; in each case the environment and the trace of effects
    are untouched, so that no command has run. *)
Theorem other_roots_are_errors (sh : Shell) :
  (forall name value,
     execute_ast (Ast.Assignment name value) sh = (Err Unimplemented, sh))
  /\ (forall kind target,
        execute_ast (Ast.Redirect kind target) sh = (Err Unimplemented, sh))
  /\ (forall kind content,
        execute_ast (Ast.Substitution kind content) sh = (Err Unimplemented, sh))
  /\ execute_ast (Ast.Pipeline []) sh = (Err EmptyPipeline, sh).
Proof. repeat split. Qed.

(** The pipeline path keeps the assignments of its stages in a clone:
    [self.env] after a pipeline is [self.env] before it. *)
Lemma pipeline_preserves_env (stages : list Ast.AstNode) (sh : Shell) :
  env (snd (execute_ast (Ast.Pipeline stages) sh)) = env sh.
Proof.
  assert (Hloop : forall stages previous_output last_exit sh,
             env (snd (pipeline_loop stages previous_output last_exit sh)) = env sh).
  { clear. induction stages as [|stage stages IH]; intros previous_output last_exit sh.
    - done.
    - cbn [Executor.pipeline_loop].
      destruct stage as [|[|w ws] assignments redirects| | |];
        try (destruct (run_stage _ _ _) as [[[out code] ev]|e];
             [by rewrite IH | done]).
      destruct (wordless_stage _ _ _) as [out code]. apply IH. }
  destruct stages as [|stage stages]; [done |].
  cbn [Executor.execute_ast].
  specialize (Hloop (stage :: stages) None 0%Z sh).
  destruct (pipeline_loop (stage :: stages) None 0%Z sh) as [[[[out|] code]|e] sh'];
    done.
Qed.

(** C1 on [A=21 somecmd]. The single command path applies the assignment
    to [self.env] itself: the process is spawned with [A] set, and [A] is
    still set in the environment of the shell after the command. *)
Theorem command_assignments_persist :
  let line :=
    Ast.Command [Ast.Literal "somecmd"]
      [Ast.Assignment "A" (Some (Ast.Literal "21"))] [] in
  let after := <["A" := "21"]> (∅ : Env) in
  execute_ast line empty_shell
  = (Ok (snd (process "somecmd" [] after None)),
     {| env := after; events := [Spawned "somecmd" [] after None] |})
  /\ env (snd (execute_ast line empty_shell)) !! "A" = Some "21"
  /\ env empty_shell !! "A" = None.
Proof.
  intros line after.
  assert (H : execute_ast line empty_shell
              = (Ok (snd (process "somecmd" [] after None)),
                 {| env := after; events := [Spawned "somecmd" [] after None] |})).
  { unfold line, Executor.execute_ast, Executor.run. cbn.
    fold after. by destruct (process "somecmd" [] after None). }
  rewrite H. split; [reflexivity |]. split; [apply lookup_insert_eq | reflexivity].
Qed.

(** C4 on the stage [A=21 printenv A] of a pipeline. The assignment is
    applied to the clone used to resolve the name and the arguments, and
    the process is spawned with [self.env], in which [A] is not set. *)
Theorem pipeline_spawn_env_is_ambient
    (self_env : Env) (previous_output : option string) :
  let assignments := [Ast.Assignment "A" (Some (Ast.Literal "21"))] in
  let stage := Ast.Command [Ast.Literal "printenv"; Ast.Literal "A"] assignments [] in
  run_stage self_env previous_output stage
  = Ok (process "printenv" ["A"] self_env previous_output,
        Spawned "printenv" ["A"] self_env previous_output)
  /\ apply_assignments assignments self_env !! "A" = Some "21"
  /\ apply_assignments assignments self_env = <["A" := "21"]> self_env.
Proof.
  intros assignments stage. split; [| split].
  - unfold stage, Executor.run_stage. cbn.
    by destruct (process "printenv" ["A"] self_env previous_output).
  - apply lookup_insert_eq.
  - reflexivity.
Qed.

End Facts.

Lemma pipeline_exit_code_is_last_witness :
  fst (sample_execute
         (Ast.Pipeline ([Ast.Command [Ast.Literal "false"] [] [];
                         Ast.Command [Ast.Literal "cat"] [] []]
                        ++ [Ast.Command [Ast.Literal "true"] [] []]))
         empty_shell)
  = Ok (snd (ExecutorAux.stage_answer sample_command_output sample_process
               sample_builtin sample_wordless_stage (env empty_shell)
               (ExecutorAux.handed_over sample_command_output sample_process
                  sample_builtin sample_wordless_stage (env empty_shell) None
                  [Ast.Command [Ast.Literal "false"] [] [];
                   Ast.Command [Ast.Literal "cat"] [] []])
               (Ast.Command [Ast.Literal "true"] [] []))).
Proof.
  apply (pipeline_exit_code_is_last sample_command_output sample_process sample_builtin
           sample_wordless_stage
           [Ast.Command [Ast.Literal "false"] [] [];
            Ast.Command [Ast.Literal "cat"] [] []]
           (Ast.Command [Ast.Literal "true"] [] []) empty_shell).
  - discriminate.
  - repeat constructor.
Defined.

(** The first stage exits with 1, the last with 0: the pipeline reports 0. *)
Example failing_first_stage :
  sample_execute
    (Ast.Pipeline [Ast.Command [Ast.Literal "false"] [] [];
                   Ast.Command [Ast.Literal "true"] [] []]) empty_shell
  = (Ok 0%Z,
     {| env := ∅;
        events := [Spawned "false" [] ∅ None; Spawned "true" [] ∅ (Some "");
                   Wrote ""] |})
  /\ snd (sample_process "false" [] ∅ None) = 1%Z.
Proof. split; reflexivity. Qed.

(** The last stage exits with 1 after a first stage that exits with 0: the
    pipeline reports 1. *)
Example failing_last_stage :
  sample_execute
    (Ast.Pipeline [Ast.Command [Ast.Literal "true"] [] [];
                   Ast.Command [Ast.Literal "false"] [] []]) empty_shell
  = (Ok 1%Z,
     {| env := ∅;
        events := [Spawned "true" [] ∅ None; Spawned "false" [] ∅ (Some "");
                   Wrote ""] |}).
Proof. reflexivity. Qed.

(** The lines [false | A=1] and [true |], whose last stage has no command
    word: the first stage runs, and the pipeline reports what the stage
    without command word leaves, here 0. *)
Example last_stage_without_command_word :
  Parser.construct_ast
    [Tok.Word [Tok.Literal "false"]; Tok.PipeOp; Tok.Word [Tok.Literal "A"];
     Tok.Equal; Tok.Word [Tok.Literal "1"]]
  = Ok (Ast.Pipeline [Ast.Command [Ast.Literal "false"] [] [];
                      Ast.Command [] [Ast.Assignment "A" (Some (Ast.Literal "1"))] []])
  /\ sample_execute
       (Ast.Pipeline [Ast.Command [Ast.Literal "false"] [] [];
                      Ast.Command [] [Ast.Assignment "A" (Some (Ast.Literal "1"))] []])
       empty_shell
     = (Ok 0%Z, {| env := ∅; events := [Spawned "false" [] ∅ None; Wrote ""] |})
  /\ Parser.construct_ast [Tok.Word [Tok.Literal "true"]; Tok.PipeOp]
     = Ok (Ast.Pipeline [Ast.Command [Ast.Literal "true"] [] []; Ast.Command [] [] []])
  /\ fst (sample_execute
            (Ast.Pipeline [Ast.Command [Ast.Literal "true"] [] []; Ast.Command [] [] []])
            empty_shell)
     = Ok 0%Z.
Proof. repeat split; reflexivity. Qed.

(** The same line, alone and as a stage of a pipeline: alone, [printenv]
    sees [A]; in the pipeline it does not and fails. *)
Example assignment_alone_and_in_pipeline :
  let stage :=
    Ast.Command [Ast.Literal "printenv"; Ast.Literal "A"]
      [Ast.Assignment "A" (Some (Ast.Literal "21"))] [] in
  fst (sample_execute stage empty_shell) = Ok 0%Z
  /\ fst (sample_execute
            (Ast.Pipeline [stage; Ast.Command [Ast.Literal "cat"] [] []]) empty_shell)
     = Ok 0%Z
  /\ events (snd (sample_execute
                    (Ast.Pipeline [stage; Ast.Command [Ast.Literal "cat"] [] []])
                    empty_shell))
     = [Spawned "printenv" ["A"] ∅ None; Spawned "cat" [] ∅ (Some ""); Wrote ""]
  /\ sample_process "printenv" ["A"] (<["A" := "21"]> ∅) None = ("21", 0%Z)
  /\ sample_process "printenv" ["A"] ∅ None = ("", 1%Z).
Proof. repeat split; vm_compute; reflexivity. Qed.

End ExecutorFacts.

(** * Further properties of the lexer *)

Module LexerMore.
Import Tok Lexer LexerFacts LexerAux.

(** **** Text inside a substitution *)

Lemma run_subst_text mkstate mk op cl
    (Hstep : forall d fsm c, state fsm = mkstate d ->
                             step fsm c = step_subst mkstate mk op cl d fsm c)
    (Hopen : forall d, opens_subst (mkstate d) = false) s :
  forall k k' fsm rest,
    Nesting.depth_after op cl k s = Some k' ->
    state fsm = mkstate (S k) ->
    run fsm (s +:+ rest)
    = run {| state := mkstate (S k'); buffer := buffer fsm +:+ s;
             dollar := dollar fsm; parts := parts fsm; tokens := tokens fsm |} rest.
Proof.
  induction s as [|c s IH]; intros k k' fsm rest Hd Hst.
  - simpl in Hd. injection Hd as <-. rewrite append_nil_r.
    destruct fsm; simpl in *; by subst.
  - rewrite append_cons, run_step by (by rewrite Hst, Hopen).
    rewrite (Hstep _ _ _ Hst). unfold step_subst. simpl in Hd.
    destruct (Ascii.eqb c op).
    + rewrite (IH (S k) k') by done. simpl. by rewrite append_push.
    + destruct (Ascii.eqb c cl).
      * destruct k as [|k]; [done |].
        replace (Nat.eqb (S (S k)) 1) with false by done.
        rewrite (IH k k') by (done || simpl; f_equal; lia).
        simpl. by rewrite append_push.
      * rewrite (IH k k') by done. simpl. by rewrite append_push.
Qed.

Lemma run_cmd_subst_text s k k' fsm rest :
  Nesting.depth_after "(" ")" k s = Some k' ->
  state fsm = ReadingCmdSubst (S k) ->
  run fsm (s +:+ rest)
  = run {| state := ReadingCmdSubst (S k'); buffer := buffer fsm +:+ s;
           dollar := dollar fsm; parts := parts fsm; tokens := tokens fsm |} rest.
Proof.
  apply (run_subst_text ReadingCmdSubst CmdSubst); [| done].
  intros d f c Hst. unfold step. by rewrite Hst.
Qed.

Lemma run_param_subst_text s k k' fsm rest :
  Nesting.depth_after "{" "}" k s = Some k' ->
  state fsm = ReadingParamSubst (S k) ->
  run fsm (s +:+ rest)
  = run {| state := ReadingParamSubst (S k'); buffer := buffer fsm +:+ s;
           dollar := dollar fsm; parts := parts fsm; tokens := tokens fsm |} rest.
Proof.
  apply (run_subst_text ReadingParamSubst ParamSubst); [| done].
  intros d f c Hst. unfold step. by rewrite Hst.
Qed.

Lemma run_opener fsm c d rest st :
  subst_opener (state fsm) c d = Some st ->
  run fsm (String c (String d rest)) = run (enter_subst st fsm) rest.
Proof. intros H. simpl. by rewrite H. Qed.

Lemma run_no_opener fsm c d rest :
  subst_opener (state fsm) c d = None ->
  run fsm (String c (String d rest)) = run (step fsm c) (String d rest).
Proof. intros H. simpl. by rewrite H. Qed.

Lemma well_nested_depth op cl s :
  Nesting.well_nested op cl s = true -> Nesting.depth_after op cl 0 s = Some 0.
Proof.
  unfold Nesting.well_nested.
  by destruct (Nesting.depth_after op cl 0 s) as [[|n]|].
Qed.

(** Arbitrary nesting of substitutions: for every text with balanced
    parentheses, [$(] text [)] read while reading a word is one
    [CmdSubst] part holding the whole text, inner substitutions included;
    the same for [${] text [}] with balanced braces and [ParamSubst]. The
    text read before it is a finished fragment of the same word, no token
    is emitted, and the automaton goes on in [ReadingWord]. *)
Lemma nested_substitution_is_one_part_aux (fsm : LexingFSM) (inner rest : string) :
  opens_subst (state fsm) = true ->
  let before := flush_fragment fsm in
  (Nesting.well_nested "(" ")" inner = true ->
   run fsm (String "$" (String "(" (inner +:+ String ")" rest)))
   = run {| state := ReadingWord; buffer := ""; dollar := false;
            parts := parts before ++ [CmdSubst inner]; tokens := tokens before |} rest)
  /\ (Nesting.well_nested "{" "}" inner = true ->
      run fsm (String "$" (String "{" (inner +:+ String "}" rest)))
      = run {| state := ReadingWord; buffer := ""; dollar := false;
               parts := parts before ++ [ParamSubst inner]; tokens := tokens before |}
          rest).
Proof.
  intros Hopen before.
  assert (Hbuf : buffer before = "").
  { unfold before, flush_fragment. by destruct (buffer fsm). }
  split; intros Hn%well_nested_depth.
  - rewrite (run_opener fsm "$" "(" _ (ReadingCmdSubst 1))
      by (unfold subst_opener; by rewrite Hopen).
    rewrite (run_cmd_subst_text inner 0 0) by done.
    rewrite run_step by done.
    unfold enter_subst. simpl. fold before. by rewrite Hbuf.
  - rewrite (run_opener fsm "$" "{" _ (ReadingParamSubst 1))
      by (unfold subst_opener; by rewrite Hopen).
    rewrite (run_param_subst_text inner 0 0) by done.
    rewrite run_step by done.
    unfold enter_subst. simpl. fold before. by rewrite Hbuf.
Qed.

(** X3. Arbitrary nesting of substitutions: for every text with balanced
    parentheses, [$(] text [)] read while reading a word is one
    [CmdSubst] part holding the whole text, inner substitutions included;
    the same for [${] text [}] with balanced braces and [ParamSubst]. The
    text read before it is a finished fragment of the same word, no token
    is emitted, and the automaton goes on in [ReadingWord]. *)
Theorem nested_substitution_is_one_part (fsm : LexingFSM) (inner rest : string) :
  opens_subst (state fsm) = true ->
  let before := flush_fragment fsm in
  (Nesting.well_nested "(" ")" inner = true ->
   run fsm (String "$" (String "(" (inner +:+ String ")" rest)))
   = run {| state := ReadingWord; buffer := ""; dollar := false;
            parts := parts before ++ [CmdSubst inner]; tokens := tokens before |} rest)
  /\ (Nesting.well_nested "{" "}" inner = true ->
      run fsm (String "$" (String "{" (inner +:+ String "}" rest)))
      = run {| state := ReadingWord; buffer := ""; dollar := false;
               parts := parts before ++ [ParamSubst inner]; tokens := tokens before |}
          rest).
Proof. apply nested_substitution_is_one_part_aux. Qed.

Lemma nested_substitution_is_one_part_witness :
  run (run init "a") (String "$" (String "(" ("echo $(date) (x(y))" +:+ String ")" " b")))
  = run {| state := ReadingWord; buffer := ""; dollar := false;
           parts := parts (flush_fragment (run init "a"))
                    ++ [CmdSubst "echo $(date) (x(y))"];
           tokens := tokens (flush_fragment (run init "a")) |} " b".
Proof.
  apply (proj1 (nested_substitution_is_one_part
                  (run init "a") "echo $(date) (x(y))" " b" eq_refl)).
  reflexivity.
Defined.

(** **** Identifiers, words and blanks *)

Lemma ident_char_plain c :
  is_alpha c || is_digit c = true -> is_plain c = true.
Proof.
  intros H.
  assert (Hne : forall x, is_alpha x || is_digit x = false -> Ascii.eqb c x = false).
  { intros x Hx. destruct (Ascii.eqb_spec c x) as [-> |]; [congruence | done]. }
  unfold is_plain, is_space, operator_token.
  rewrite !Hne by done. done.
Qed.

Lemma ident_chars_plain s :
  all_chars (fun d => is_alpha d || is_digit d) s = true -> all_chars is_plain s = true.
Proof.
  induction s as [|c s IH]; [done |]. simpl.
  intros [Hc Hs]%andb_prop. by rewrite ident_char_plain, IH.
Qed.

Lemma valid_identifier_plain name :
  valid_identifier name = true -> plain_word name = true.
Proof.
  destruct name as [|c name]; [done |]. simpl.
  intros [Hc Hs]%andb_prop.
  rewrite ident_char_plain by (by rewrite Hc). by apply ident_chars_plain.
Qed.

Lemma plain_no_braces s :
  all_chars is_plain s = true ->
  all_chars (fun c => is_alpha c || is_digit c) s = true ->
  forall k, Nesting.depth_after "{" "}" k s = Some k.
Proof.
  induction s as [|c s IH]; [done |]. simpl.
  intros [_ Hs]%andb_prop [Hc Hi]%andb_prop k.
  assert (Hne : forall x, is_alpha x || is_digit x = false -> Ascii.eqb c x = false).
  { intros x Hx. destruct (Ascii.eqb_spec c x) as [-> |]; [congruence | done]. }
  rewrite !Hne by done. by apply IH.
Qed.

(** Reading a fragment begun by a bare [$]. *)
Lemma run_bare_dollar fsm s rest :
  word_state (state fsm) = true ->
  all_chars is_plain s = true ->
  match s with
  | String c _ => Ascii.eqb c "(" = false /\ Ascii.eqb c "{" = false
  | EmptyString => rest = ""
  end ->
  let before := flush_fragment fsm in
  run fsm (String "$" (s +:+ rest))
  = run {| state := ReadingWord; buffer := String "$" s; dollar := true;
           parts := parts before; tokens := tokens before |} rest.
Proof.
  intros Hw Hs Hhead before.
  assert (Hstep : step fsm "$" = set_state ReadingWord (begin_dollar fsm)).
  { unfold step. by destruct (state fsm). }
  destruct s as [|c s].
  - subst rest. simpl. by rewrite Hstep.
  - destruct Hhead as [Hp Hb].
    assert (Hrun : run fsm (String "$" (String c s +:+ rest))
                   = run (step fsm "$") (String c s +:+ rest)).
    { rewrite append_cons. apply run_no_opener. unfold subst_opener.
      rewrite Hp, Hb. by destruct (opens_subst _ && _). }
    rewrite Hrun, Hstep.
    rewrite (run_plain (String c s) rest Hs) by done. done.
Qed.

(** X4. A bare [$] followed by plain text, read as the last fragment of a
    line: the fragment is the parameter substitution of the text when the
    text is a well-formed name, and the literal text with its [$]
    otherwise. The braced form [${name}] of a well-formed name is the same
    token as [$name]. *)
Theorem bare_dollar_fragment (s : string) :
  all_chars is_plain s = true ->
  match s with
  | String c _ => Ascii.eqb c "(" = false /\ Ascii.eqb c "{" = false
  | EmptyString => True
  end ->
  tokenize (String "$" s)
  = Ok [Word [if valid_identifier s then ParamSubst s else Literal (String "$" s)]]
  /\ (valid_identifier s = true ->
      tokenize ("${" +:+ s +:+ "}") = tokenize (String "$" s)).
Proof.
  intros Hs Hhead.
  assert (Hbare : tokenize (String "$" s)
                  = Ok [Word [if valid_identifier s then ParamSubst s
                              else Literal (String "$" s)]]).
  { unfold tokenize. rewrite <- (append_nil_r s).
    rewrite (run_bare_dollar init s "") by (done || by destruct s).
    rewrite append_nil_r. unfold finish, finalize_word, flush_fragment. simpl.
    by destruct (valid_identifier s). }
  split; [done |]. intros Hid. rewrite Hbare, Hid.
  unfold tokenize.
  change ("${" +:+ s +:+ "}") with (String "$" (String "{" (s +:+ String "}" ""))).
  rewrite (proj2 (nested_substitution_is_one_part_aux init s "" eq_refl)).
  - reflexivity.
  - destruct s as [|c s]; [done |]. simpl in Hid. apply andb_prop in Hid as [Hc Hi].
    unfold Nesting.well_nested.
    rewrite (plain_no_braces (String c s) Hs); [done |].
    simpl. by rewrite Hc, Hi.
Qed.

Lemma bare_dollar_fragment_witness :
  tokenize (String "$" "HOME")
  = Ok [Word [if valid_identifier "HOME" then ParamSubst "HOME"
              else Literal (String "$" "HOME")]]
  /\ (valid_identifier "HOME" = true ->
      tokenize ("${" +:+ "HOME" +:+ "}") = tokenize (String "$" "HOME")).
Proof. apply (bare_dollar_fragment "HOME"); [reflexivity | by split]. Defined.

Lemma run_blanks s :
  all_chars is_space s = true ->
  forall ts rest, run (between_words ts) (s +:+ rest) = run (between_words ts) rest.
Proof.
  induction s as [|c s IH]; [done |]. intros Hall ts rest.
  simpl in Hall. apply andb_prop in Hall as [Hc Hs].
  assert (Hd : Ascii.eqb c "$" = false).
  { destruct (Ascii.eqb_spec c "$") as [-> |]; done. }
  rewrite append_cons, run_step_not_dollar by done.
  replace (step (between_words ts) c) with (between_words ts);
    [by apply IH |].
  unfold step, step_word. simpl. by rewrite Hc.
Qed.

Lemma run_word_blank w ts rest :
  plain_word w = true ->
  run (between_words ts) (w +:+ String " " rest)
  = run (between_words (ts ++ [Word [Literal w]])) rest.
Proof.
  intros Hw. rewrite run_plain_word by done.
  rewrite run_step_not_dollar by done.
  by destruct w.
Qed.

Lemma finish_words ws :
  Forall (fun w => plain_word w = true) ws ->
  forall ts,
    finish (run (between_words ts) (String.concat " " ws))
    = Ok (ts ++ map (fun w => Word [Literal w]) ws).
Proof.
  induction 1 as [|w ws Hw Hws IH]; intros ts.
  - simpl. by rewrite app_nil_r.
  - destruct ws as [|w' ws].
    + simpl. rewrite <- (append_nil_r w), run_plain_word by done.
      rewrite append_nil_r. by destruct w.
    + change (String.concat " " (w :: w' :: ws))
        with (w +:+ String " " (String.concat " " (w' :: ws))).
      rewrite run_word_blank by done. rewrite IH.
      by rewrite <- app_assoc.
Qed.

(** X5. A line of plain words separated by single blanks is tokenized into
    one literal word per word, in order; a line of blanks only (the empty
    line included) has no tokens. *)
Theorem tokenize_plain_words :
  (forall ws : list string,
     Forall (fun w => plain_word w = true) ws ->
     tokenize (String.concat " " ws) = Ok (map (fun w => Word [Literal w]) ws))
  /\ (forall blanks : string,
        all_chars is_space blanks = true -> tokenize blanks = Ok []).
Proof.
  split.
  - intros ws Hws. apply (finish_words ws Hws []).
  - intros blanks Hb. unfold tokenize.
    rewrite <- (append_nil_r blanks). change init with (between_words []).
    by rewrite (run_blanks blanks Hb [] "").
Qed.

Lemma tokenize_plain_words_witness :
  tokenize (String.concat " " ["grep"; "-v"; "foo.txt"])
  = Ok (map (fun w => Word [Literal w]) ["grep"; "-v"; "foo.txt"])
  /\ tokenize "   " = Ok [].
Proof.
  split.
  - apply (proj1 tokenize_plain_words ["grep"; "-v"; "foo.txt"]).
    repeat constructor.
  - by apply (proj2 tokenize_plain_words "   ").
Defined.

(** **** Inside double quotes *)

Lemma run_double_quote s t :
  all_chars double_quote_literal s = true ->
  forall fsm,
    state fsm = ReadingDoubleQuote ->
    dollar fsm = false ->
    run fsm (s +:+ t)
    = run {| state := ReadingDoubleQuote; buffer := buffer fsm +:+ s;
             dollar := false; parts := parts fsm; tokens := tokens fsm |} t.
Proof.
  induction s as [|c s IH]; intros Hs fsm Hst Hd.
  - rewrite append_nil_r. destruct fsm; simpl in *; by subst.
  - simpl in Hs. apply andb_prop in Hs as [Hc Hs].
    unfold double_quote_literal in Hc.
    apply andb_prop in Hc as [Hq%negb_true_iff Hdl%negb_true_iff].
    rewrite append_cons, run_step_not_dollar by done.
    unfold step. rewrite Hst. unfold step_double_quote. rewrite Hq, Hdl, Hd.
    cbn [andb].
    rewrite (IH Hs (push c fsm) Hst Hd). simpl. by rewrite append_push.
Qed.

(** X6. A double-quoted region opened while reading a word, holding
    neither [$] nor a double quote: its text, blanks and operators
    included, is appended to the literal text of the word; no part and no
    token is emitted and the word is not broken, and the closing quote
    returns the automaton to [ReadingWord]. *)
Theorem double_quote_is_literal (fsm : LexingFSM) (s rest : string) :
  word_state (state fsm) = true ->
  all_chars double_quote_literal s = true ->
  let opened := flush_dollar fsm in
  run fsm (String dquote (s +:+ String dquote rest))
  = run {| state := ReadingWord; buffer := buffer opened +:+ s; dollar := false;
           parts := parts opened; tokens := tokens opened |} rest.
Proof.
  intros Hw Hs opened.
  assert (Hopen : step fsm dquote = set_state ReadingDoubleQuote opened).
  { unfold step. by destruct (state fsm). }
  rewrite run_step_not_dollar, Hopen by done.
  rewrite run_double_quote by (done || apply dollar_flush_dollar).
  rewrite run_step_not_dollar by done.
  unfold step, step_double_quote. simpl.
  replace (Ascii.eqb dquote dquote) with true by done.
  reflexivity.
Qed.

Lemma double_quote_is_literal_witness :
  run init (String dquote ("a | b > c 'd'" +:+ String dquote " e"))
  = run {| state := ReadingWord;
           buffer := buffer (flush_dollar init) +:+ "a | b > c 'd'"; dollar := false;
           parts := parts (flush_dollar init); tokens := tokens (flush_dollar init) |}
      " e".
Proof. apply (double_quote_is_literal init "a | b > c 'd'" " e"); reflexivity. Defined.


(** **** Operators *)

Lemma operator_token_inv c tok :
  operator_token c = Some tok ->
  is_space c = false /\ Ascii.eqb c "'" = false /\ Ascii.eqb c dquote = false
  /\ Ascii.eqb c "$" = false.
Proof.
  unfold operator_token.
  repeat match goal with
         | |- context [if Ascii.eqb c ?x then _ else _] =>
             destruct (Ascii.eqb_spec c x) as [-> |]; [done |]
         end.
  done.
Qed.

Lemma run_operator ts w c tok rest :
  operator_token c = Some tok ->
  plain_word w = true ->
  run (between_words ts) (w +:+ String c rest)
  = run (between_words (ts ++ [Word [Literal w]; tok])) rest.
Proof.
  intros Hop Hw. destruct (operator_token_inv c tok Hop) as (Hsp & Hq & Hdq & Hd).
  rewrite run_plain_word by done.
  rewrite run_step_not_dollar by done.
  unfold step, step_word. simpl. rewrite Hsp, Hq, Hdq, Hop.
  destruct w; [done |]. unfold between_words, emit, finalize_word. simpl.
  by rewrite <- app_assoc.
Qed.

(** X10. An operator character, one of [| = / < >], needs no blanks
    around it: between two plain words it ends the first word, is emitted
    as its own token, and the second word starts right after it. *)
Theorem operator_splits_words (w1 w2 : string) (c : ascii) (tok : Token) :
  operator_token c = Some tok ->
  plain_word w1 = true ->
  plain_word w2 = true ->
  tokenize (w1 +:+ String c w2) = Ok [Word [Literal w1]; tok; Word [Literal w2]].
Proof.
  intros Hop Hw1 Hw2. unfold tokenize. change init with (between_words []).
  rewrite (run_operator [] w1 c tok w2 Hop Hw1).
  rewrite <- (append_nil_r w2), run_plain_word by done.
  rewrite append_nil_r. by destruct w2.
Qed.

Lemma operator_splits_words_witness :
  tokenize ("ls" +:+ String "|" "wc") = Ok [Word [Literal "ls"]; PipeOp; Word [Literal "wc"]].
Proof. apply (operator_splits_words "ls" "wc" "|" PipeOp); reflexivity. Defined.

End LexerMore.

(** * Further properties of the parser *)

Module ParserMore.
Import Tok Parser Shape.

(** **** The shape of the syntax tree *)

Lemma parse_assignment_node toks a rest :
  parse_assignment toks = Ok (a, rest) -> is_assignment_node a = true.
Proof.
  unfold parse_assignment, unexpected.
  destruct toks as [|[[|[] [|]]| | | | |] toks]; try done.
  destruct toks as [|[] [|[] toks]]; try done; by intros [= <- _].
Qed.

Lemma parse_redirect_node toks r rest :
  parse_redirect toks = Ok (r, rest) -> is_redirect_node r = true.
Proof.
  unfold parse_redirect, parse_word, unexpected.
  destruct toks as [|[] toks]; try done.
  - destruct toks as [|[] toks]; try done; by intros [= <- _].
  - destruct toks as [|[] toks]; try done; try (by intros [= <- _]).
    destruct toks as [|[] toks]; try done; by intros [= <- _].
Qed.

Lemma parse_command_loop_shape fuel :
  forall argv assignments redirects toks node rest,
    forallb is_assignment_node assignments = true ->
    forallb is_redirect_node redirects = true ->
    parse_command_loop fuel argv assignments redirects toks = Ok (node, rest) ->
    command_shape node = true.
Proof.
  induction fuel as [|fuel IH];
    intros argv assignments redirects toks node rest Has Hrs;
    destruct toks as [|[] toks]; cbn [parse_command_loop];
    try (intros [= <- _]; simpl; by rewrite Has, Hrs); try done.
  - destruct (is_assignment argv (Word parts :: toks)).
    + destruct (parse_assignment (Word parts :: toks)) as [[a r]|e] eqn:Ha; [| done].
      apply IH; [| done]. rewrite forallb_app, Has. simpl.
      by rewrite (parse_assignment_node _ _ _ Ha).
    + destruct (parse_word_or_path_with_equal (Word parts :: toks)) as [[w r]|e];
        [by apply IH | done].
  - destruct (is_assignment argv (Slash :: toks)).
    + destruct (parse_assignment (Slash :: toks)) as [[a r]|e] eqn:Ha; [| done].
      apply IH; [| done]. rewrite forallb_app, Has. simpl.
      by rewrite (parse_assignment_node _ _ _ Ha).
    + destruct (parse_word_or_path_with_equal (Slash :: toks)) as [[w r]|e];
        [by apply IH | done].
  - destruct (parse_redirect (RedirectLeft :: toks)) as [[a r]|e] eqn:Hr; [| done].
    apply IH; [done |]. rewrite forallb_app, Hrs. simpl.
    by rewrite (parse_redirect_node _ _ _ Hr).
  - destruct (parse_redirect (RedirectRight :: toks)) as [[a r]|e] eqn:Hr; [| done].
    apply IH; [done |]. rewrite forallb_app, Hrs. simpl.
    by rewrite (parse_redirect_node _ _ _ Hr).
Qed.

Lemma parse_commands_shape fuel :
  forall toks cmds rest,
    parse_commands fuel toks = Ok (cmds, rest) ->
    forallb command_shape cmds = true.
Proof.
  induction fuel as [|fuel IH]; intros toks cmds rest; cbn [parse_commands];
    destruct (parse_command (length toks) toks) as [[cmd r]|e] eqn:Hcmd; try done;
    apply parse_command_loop_shape in Hcmd; try done.
  - destruct r as [|[] r]; try done; intros [= <- _]; simpl; by rewrite Hcmd.
  - destruct r as [|[] r]; try (intros [= <- _]; simpl; by rewrite Hcmd).
    destruct (parse_commands fuel r) as [[cmds' r']|e] eqn:Hrest; [| done].
    intros [= <- _]. simpl. rewrite Hcmd. by apply IH in Hrest.
Qed.

Lemma construct_ast_shape (toks : list Token) (ast : Ast.AstNode) :
  construct_ast toks = Ok ast -> ast_shape ast = true.
Proof.
  unfold construct_ast, parse_pipeline.
  destruct (parse_commands (length toks) toks) as [[cmds rest]|e] eqn:Hcmds; [| done].
  destruct rest as [|tok rest]; [| done]. intros [= <-].
  pose proof (parse_commands_shape _ _ _ _ Hcmds) as Hshape.
  apply ParserFacts.parse_commands_commands in Hcmds as [Hne _].
  destruct cmds as [|c [|c' cmds]]; [done | |].
  - simpl in *. rewrite andb_true_r in Hshape.
    unfold ast_shape. by destruct c.
  - unfold pipeline_node, ast_shape. by rewrite Hshape.
Qed.

(** X7. Every syntax tree the parser returns has the shape the executor
    walks: a command, or a pipeline of at least two commands, and in each
    command the assignments are [Assignment] nodes and the redirections
    [Redirect] nodes (no pipeline inside a pipeline, no other node in
    their place). *)
Theorem parsed_ast_shape (toks : list Token) (ast : Ast.AstNode) :
  construct_ast toks = Ok ast -> ast_shape ast = true.
Proof. apply construct_ast_shape. Qed.

Lemma parsed_ast_shape_witness :
  ast_shape
    (Ast.Pipeline
       [Ast.Command [Ast.Literal "make"] [Ast.Assignment "A" (Some (Ast.Literal "1"))] [];
        Ast.Command [Ast.Literal "tee"] [] [Ast.Redirect Ast.Append (Ast.Literal "log")]])
  = true.
Proof.
  apply (parsed_ast_shape
           [Word [Literal "A"]; Equal; Word [Literal "1"]; Word [Literal "make"]; PipeOp;
            Word [Literal "tee"]; RedirectRight; RedirectRight; Word [Literal "log"]]).
  reflexivity.
Defined.

(** **** Pipes and commands *)

Lemma count_pipes_cons tok toks :
  count_pipes (tok :: toks) = (if is_pipe tok then 1 else 0) + count_pipes toks.
Proof. unfold count_pipes. by destruct tok. Qed.

Lemma collect_word_parts_pipes toks :
  forall after_word ps rest,
    collect_word_parts after_word toks = (ps, rest) ->
    count_pipes rest = count_pipes toks.
Proof.
  induction toks as [|tok toks IH]; intros after_word ps rest; simpl.
  - by intros [= _ <-].
  - destruct tok; try (by intros [= _ <-]).
    + destruct after_word; [by intros [= _ <-] |].
      destruct (collect_word_parts true toks) as [qs r] eqn:Hc.
      intros [= _ <-]. by apply IH in Hc.
    + destruct (collect_word_parts false toks) as [qs r] eqn:Hc.
      intros [= _ <-]. by apply IH in Hc.
    + destruct (collect_word_parts false toks) as [qs r] eqn:Hc.
      intros [= _ <-]. by apply IH in Hc.
Qed.

Lemma parse_word_or_path_pipes toks w rest :
  parse_word_or_path_with_equal toks = Ok (w, rest) ->
  count_pipes rest = count_pipes toks.
Proof.
  unfold parse_word_or_path_with_equal.
  destruct (collect_word_parts false toks) as [ps r] eqn:Hc.
  intros [= _ <-]. by apply collect_word_parts_pipes in Hc.
Qed.

Lemma parse_assignment_pipes toks a rest :
  parse_assignment toks = Ok (a, rest) -> count_pipes rest = count_pipes toks.
Proof.
  unfold parse_assignment, unexpected.
  destruct toks as [|[[|[] [|]]| | | | |] toks]; try done.
  destruct toks as [|[] [|[] toks]]; try done; by intros [= _ <-].
Qed.

Lemma parse_redirect_pipes toks r rest :
  parse_redirect toks = Ok (r, rest) -> count_pipes rest = count_pipes toks.
Proof.
  unfold parse_redirect, parse_word, unexpected.
  destruct toks as [|[] toks]; try done.
  - destruct toks as [|[] toks]; try done; by intros [= _ <-].
  - destruct toks as [|[] toks]; try done; try (by intros [= _ <-]).
    destruct toks as [|[] toks]; try done; by intros [= _ <-].
Qed.

Lemma parse_command_loop_pipes fuel :
  forall argv assignments redirects toks node rest,
    parse_command_loop fuel argv assignments redirects toks = Ok (node, rest) ->
    count_pipes rest = count_pipes toks.
Proof.
  induction fuel as [|fuel IH]; intros argv assignments redirects toks node rest;
    destruct toks as [|[] toks]; cbn [parse_command_loop];
    try (by intros [= _ <-]); try done.
  - destruct (is_assignment argv (Word parts :: toks)).
    + destruct (parse_assignment (Word parts :: toks)) as [[a r]|e] eqn:Ha; [| done].
      intros H%IH. by rewrite H, (parse_assignment_pipes _ _ _ Ha).
    + destruct (parse_word_or_path_with_equal (Word parts :: toks)) as [[w r]|e] eqn:Hw;
        [| done].
      intros H%IH. by rewrite H, (parse_word_or_path_pipes _ _ _ Hw).
  - destruct (is_assignment argv (Slash :: toks)).
    + destruct (parse_assignment (Slash :: toks)) as [[a r]|e] eqn:Ha; [| done].
      intros H%IH. by rewrite H, (parse_assignment_pipes _ _ _ Ha).
    + destruct (parse_word_or_path_with_equal (Slash :: toks)) as [[w r]|e] eqn:Hw;
        [| done].
      intros H%IH. by rewrite H, (parse_word_or_path_pipes _ _ _ Hw).
  - destruct (parse_redirect (RedirectLeft :: toks)) as [[a r]|e] eqn:Hr; [| done].
    intros H%IH. by rewrite H, (parse_redirect_pipes _ _ _ Hr).
  - destruct (parse_redirect (RedirectRight :: toks)) as [[a r]|e] eqn:Hr; [| done].
    intros H%IH. by rewrite H, (parse_redirect_pipes _ _ _ Hr).
Qed.

Lemma parse_commands_pipes fuel :
  forall toks cmds rest,
    parse_commands fuel toks = Ok (cmds, rest) ->
    length cmds + count_pipes rest = S (count_pipes toks).
Proof.
  induction fuel as [|fuel IH]; intros toks cmds rest; cbn [parse_commands];
    destruct (parse_command (length toks) toks) as [[cmd r]|e] eqn:Hcmd; try done;
    apply parse_command_loop_pipes in Hcmd.
  - destruct r as [|[] r]; try done; intros [= <- <-]; simpl; lia.
  - destruct r as [|[] r]; try (intros [= <- <-]; simpl; lia).
    destruct (parse_commands fuel r) as [[cmds' r']|e] eqn:Hrest; [| done].
    intros [= <- <-]. apply IH in Hrest.
    rewrite count_pipes_cons in Hcmd. simpl in *. lia.
Qed.

(** X8. When the parser accepts a token sequence, every pipe operator
    separates two commands: the result has one command more than the
    sequence has pipe operators (a bare command for none). *)
Theorem commands_are_pipes_plus_one (toks : list Token) (ast : Ast.AstNode) :
  construct_ast toks = Ok ast -> stage_count ast = S (count_pipes toks).
Proof.
  unfold construct_ast, parse_pipeline.
  destruct (parse_commands (length toks) toks) as [[cmds rest]|e] eqn:Hcmds; [| done].
  destruct rest as [|tok rest]; [| done]. intros [= <-].
  pose proof (parse_commands_pipes _ _ _ _ Hcmds) as Hn.
  pose proof (ParserFacts.parse_commands_commands _ _ _ _ Hcmds) as [_ Hall].
  change (count_pipes []) with 0 in Hn.
  destruct cmds as [|c [|c' cmds]]; simpl in *; try lia.
  inversion Hall as [|? ? Hc _]; subst. by destruct c.
Qed.

Lemma commands_are_pipes_plus_one_witness :
  stage_count
    (Ast.Pipeline
       [Ast.Command [Ast.Literal "cat"; Ast.Literal "file"] [] [];
        Ast.Command [Ast.Literal "grep"; Ast.Literal "foo"] [] [];
        Ast.Command [Ast.Literal "wc"; Ast.Literal "-l"] [] []])
  = S (count_pipes
         [Word [Literal "cat"]; Word [Literal "file"]; PipeOp;
          Word [Literal "grep"]; Word [Literal "foo"]; PipeOp;
          Word [Literal "wc"]; Word [Literal "-l"]]).
Proof.
  apply (commands_are_pipes_plus_one
           [Word [Literal "cat"]; Word [Literal "file"]; PipeOp;
            Word [Literal "grep"]; Word [Literal "foo"]; PipeOp;
            Word [Literal "wc"]; Word [Literal "-l"]]).
  reflexivity.
Defined.

(** **** A redirection without a target *)

Lemma ends_with_cons op tok toks : ends_with op toks -> ends_with op (tok :: toks).
Proof. intros [front ->]. by exists (tok :: front). Qed.

Lemma ends_with_self op toks : ends_with op (toks ++ [op]).
Proof. by exists toks. Qed.

Lemma collect_word_parts_ends op toks :
  is_redirect_token op = true ->
  forall after_word ps rest,
    collect_word_parts after_word (toks ++ [op]) = (ps, rest) -> ends_with op rest.
Proof.
  intros Hop. induction toks as [|tok toks IH]; intros after_word ps rest.
  - destruct op; try done; intros [= _ <-]; by exists [].
  - cbn [app collect_word_parts].
    destruct tok; try (intros [= _ <-]; apply ends_with_cons, ends_with_self).
    + destruct after_word; [intros [= _ <-]; apply ends_with_cons, ends_with_self |].
      destruct (collect_word_parts true (toks ++ [op])) as [qs r] eqn:Hc.
      intros [= _ <-]. by apply IH in Hc.
    + destruct (collect_word_parts false (toks ++ [op])) as [qs r] eqn:Hc.
      intros [= _ <-]. by apply IH in Hc.
    + destruct (collect_word_parts false (toks ++ [op])) as [qs r] eqn:Hc.
      intros [= _ <-]. by apply IH in Hc.
Qed.

Lemma parse_word_or_path_ends op toks w rest :
  is_redirect_token op = true ->
  parse_word_or_path_with_equal (toks ++ [op]) = Ok (w, rest) -> ends_with op rest.
Proof.
  intros Hop. unfold parse_word_or_path_with_equal.
  destruct (collect_word_parts false (toks ++ [op])) as [ps r] eqn:Hc.
  intros [= _ <-]. by apply collect_word_parts_ends in Hc.
Qed.

Lemma parse_assignment_ends op toks a rest :
  is_redirect_token op = true ->
  parse_assignment (toks ++ [op]) = Ok (a, rest) -> ends_with op rest.
Proof.
  intros Hop. unfold parse_assignment, unexpected.
  destruct toks as [|[[|[] [|]]| | | | |] toks]; cbn [app]; try done;
    try (by destruct op).
  destruct toks as [|[] toks]; cbn [app]; try done; try (by destruct op).
  destruct toks as [|[] toks]; cbn [app];
    try (intros [= _ <-]; repeat apply ends_with_cons; apply ends_with_self);
    try (destruct op; try done; intros [= _ <-]; by exists []).
Qed.

Lemma parse_redirect_ends op toks r rest :
  is_redirect_token op = true ->
  parse_redirect (toks ++ [op]) = Ok (r, rest) -> ends_with op rest.
Proof.
  intros Hop. unfold parse_redirect, parse_word, unexpected.
  destruct toks as [|[] toks]; cbn [app]; try done; try (by destruct op).
  - destruct toks as [|[] toks]; cbn [app]; try done; try (by destruct op).
    intros [= _ <-]. apply ends_with_self.
  - destruct toks as [|[] toks]; cbn [app]; try done; try (by destruct op).
    + intros [= _ <-]. apply ends_with_self.
    + destruct toks as [|[] toks]; cbn [app]; try done; try (by destruct op).
      intros [= _ <-]. apply ends_with_self.
Qed.

Lemma parse_command_loop_ends op fuel :
  is_redirect_token op = true ->
  forall argv assignments redirects toks node rest,
    parse_command_loop fuel argv assignments redirects (toks ++ [op]) = Ok (node, rest) ->
    ends_with op rest.
Proof.
  intros Hop. induction fuel as [|fuel IH];
    intros argv assignments redirects toks node rest.
  { destruct toks as [|[] toks]; cbn [app parse_command_loop]; try done;
      try (intros [= _ <-]; apply ends_with_cons, ends_with_self).
    by destruct op. }
  destruct toks as [|tok toks].
  { cbn [app]. destruct op; try done; cbn [parse_command_loop]; by cbv. }
  change ((tok :: toks) ++ [op]) with (tok :: (toks ++ [op])).
  destruct tok; cbn [parse_command_loop];
    try (intros [= _ <-]; apply ends_with_cons, ends_with_self).
  - change (Word parts :: toks ++ [op]) with ((Word parts :: toks) ++ [op]).
    destruct (is_assignment argv _).
    + destruct (parse_assignment _) as [[a r]|e] eqn:Ha; [| done].
      apply parse_assignment_ends in Ha as [front ->]; [| done]. apply IH.
    + destruct (parse_word_or_path_with_equal _) as [[w r]|e] eqn:Hw; [| done].
      apply parse_word_or_path_ends in Hw as [front ->]; [| done]. apply IH.
  - change (Slash :: toks ++ [op]) with ((Slash :: toks) ++ [op]).
    destruct (is_assignment argv _).
    + destruct (parse_assignment _) as [[a r]|e] eqn:Ha; [| done].
      apply parse_assignment_ends in Ha as [front ->]; [| done]. apply IH.
    + destruct (parse_word_or_path_with_equal _) as [[w r]|e] eqn:Hw; [| done].
      apply parse_word_or_path_ends in Hw as [front ->]; [| done]. apply IH.
  - change (RedirectLeft :: toks ++ [op]) with ((RedirectLeft :: toks) ++ [op]).
    destruct (parse_redirect _) as [[a r]|e] eqn:Hr; [| done].
    apply parse_redirect_ends in Hr as [front ->]; [| done]. apply IH.
  - change (RedirectRight :: toks ++ [op]) with ((RedirectRight :: toks) ++ [op]).
    destruct (parse_redirect _) as [[a r]|e] eqn:Hr; [| done].
    apply parse_redirect_ends in Hr as [front ->]; [| done]. apply IH.
Qed.

Lemma parse_commands_ends op fuel :
  is_redirect_token op = true ->
  forall toks cmds rest,
    parse_commands fuel (toks ++ [op]) = Ok (cmds, rest) -> ends_with op rest.
Proof.
  intros Hop. induction fuel as [|fuel IH]; intros toks cmds rest;
    cbn [parse_commands];
    destruct (parse_command _ (toks ++ [op])) as [[cmd r]|e] eqn:Hcmd; try done;
    apply parse_command_loop_ends in Hcmd as [front ->]; try done.
  - destruct front as [|[] front]; cbn [app]; try done;
      try (intros [= _ <-]; repeat apply ends_with_cons; apply ends_with_self).
    destruct op; try done; intros [= _ <-]; by exists [].
  - destruct front as [|[] front]; cbn [app];
      try (intros [= _ <-]; repeat apply ends_with_cons; apply ends_with_self).
    + destruct op; try done; intros [= _ <-]; by exists [].
    + destruct (parse_commands fuel (front ++ [op])) as [[cmds' r']|e] eqn:Hrest;
        [| done].
      intros [= _ <-]. by apply IH in Hrest.
Qed.

(** X9. A token sequence that ends with a redirection operator, [<] or
    [>], is refused by the parser with an unexpected-token error: a
    redirection needs the word of its target. *)
Theorem redirect_without_target (toks : list Token) (op : Token) :
  is_redirect_token op = true ->
  exists tok, construct_ast (toks ++ [op]) = Err (Unexpected tok).
Proof.
  intros Hop. unfold construct_ast, parse_pipeline.
  pose proof (ParserFacts.parse_commands_total (length (toks ++ [op])) (toks ++ [op])
                ltac:(lia)) as Htotal.
  destruct (parse_commands _ (toks ++ [op])) as [[cmds rest]|e] eqn:Hcmds.
  - apply parse_commands_ends in Hcmds as [front ->]; [| done].
    destruct front; simpl; eauto.
  - destruct e; [eauto | done].
Qed.

Lemma redirect_without_target_witness :
  exists tok,
    construct_ast ([Word [Literal "cat"]; RedirectRight] ++ [RedirectRight])
    = Err (Unexpected tok).
Proof.
  apply (redirect_without_target [Word [Literal "cat"]; RedirectRight] RedirectRight).
  reflexivity.
Defined.

End ParserMore.

(** * Further properties of the executor *)

Module ExecutorMore.
Import Executor ExecutorAux Shape.

Section Facts.

Variable command_output : string -> Env -> string.
Variable process : string -> list string -> Env -> option string -> string * Z.
Variable builtin : string -> list string -> Env -> option string -> string * Z * Env.
Variable wordless_stage : Ast.AstNode -> Env -> option string -> option string * Z.

Abbreviation run_stage := (Executor.run_stage command_output process builtin).
Abbreviation pipeline_loop :=
  (Executor.pipeline_loop command_output process builtin wordless_stage).
Abbreviation execute_ast :=
  (Executor.execute_ast command_output process builtin wordless_stage).
Abbreviation runs_stage := (ExecutorAux.runs_stage command_output).
Abbreviation apply_assignment := (Executor.apply_assignment command_output).
Abbreviation apply_assignments := (Executor.apply_assignments command_output).

(** **** Assignments *)

Lemma apply_literal_assignment e node name :
  literal_assignment node = true ->
  apply_assignment e node !! name
  = match node with
    | Ast.Assignment n value =>
        if String.eqb n name then literal_value value else e !! name
    | _ => e !! name
    end.
Proof.
  destruct node as [| |n value| |]; try done. simpl. intros Hlit.
  destruct (String.eqb_spec n name) as [-> | Hne].
  - rewrite lookup_insert_eq. by destruct value as [[]|].
  - by rewrite lookup_insert_ne.
Qed.

(** X11. Assignments without substitutions are applied left to right and
    the last write wins: afterwards a variable holds the value of the
    last assignment to it, and a variable that is not assigned holds what
    it held before. *)
Theorem assignments_last_write_wins
    (assignments : list Ast.AstNode) (e : Env) (name : string) :
  forallb literal_assignment assignments = true ->
  apply_assignments assignments e !! name
  = match last_assigned name assignments with
    | Some value => Some value
    | None => e !! name
    end.
Proof.
  revert e. induction assignments as [|node rest IH]; intros e; [done |].
  simpl. intros [Hnode Hrest]%andb_prop.
  unfold Executor.apply_assignments in *. simpl. rewrite IH by done.
  destruct (last_assigned name rest); [done |].
  rewrite apply_literal_assignment by done.
  destruct node as [| |n value| |]; try done.
  destruct (String.eqb n name); [| done].
  simpl in Hnode. apply bool_decide_eq_true in Hnode as [v Hv]. by rewrite Hv.
Qed.

(** **** The stages of a pipeline *)

Lemma run_stage_event self_env previous_output stage :
  has_command_word stage = true ->
  exists ev,
    run_stage self_env previous_output stage
    = Ok (event_result process builtin ev, ev)
    /\ event_stdin ev = previous_output
    /\ event_envs ev = Some self_env
    /\ runs_stage self_env stage ev.
Proof.
  destruct stage as [|[|w ws] assignments redirects| | |]; try done. intros _.
  unfold Executor.run_stage, ExecutorAux.runs_stage, call_event.
  cbn [stage_call].
  destruct (is_builtin _) eqn:Hkind.
  - match goal with
    | |- context [builtin ?n ?a ?e ?i] => exists (Invoked n a e i); simpl;
        destruct (builtin n a e i) as [[out code] e']
    end.
    repeat split; try done. eexists. split; [done |]. simpl. by rewrite Hkind.
  - match goal with
    | |- context [process ?n ?a ?e ?i] => exists (Spawned n a e i); simpl;
        destruct (process n a e i) as [out code]
    end.
    repeat split; try done. eexists. split; [done |]. simpl. by rewrite Hkind.
Qed.

Lemma pipeline_loop_trace stages :
  Forall (fun stage => has_command_word stage = true) stages ->
  forall previous_output last_exit sh,
  exists evs,
    pipeline_loop stages previous_output last_exit sh
    = (Ok (chain_result process builtin previous_output last_exit evs),
       {| env := env sh; events := events sh ++ evs |})
    /\ length evs = length stages
    /\ chained process builtin previous_output evs
    /\ Forall (fun ev => event_envs ev = Some (env sh)) evs
    /\ Forall2 (runs_stage (env sh)) stages evs.
Proof.
  induction 1 as [|stage stages Hok _ IH]; intros previous_output last_exit sh.
  - exists []. simpl. rewrite app_nil_r. destruct sh. by repeat split.
  - destruct (run_stage_event (env sh) previous_output stage Hok)
      as (ev & Hrun & Hin & Henv & Hstage).
    destruct (IH (Some (fst (event_result process builtin ev)))
                 (snd (event_result process builtin ev))
                 {| env := env sh; events := events sh ++ [ev] |})
      as (evs & Hloop & Hlen & Hchain & Henvs & Hstages).
    exists (ev :: evs).
    destruct stage as [|[|w ws] assignments redirects| | |]; try done.
    cbn [Executor.pipeline_loop]. rewrite Hrun.
    destruct (event_result process builtin ev) as [out code] eqn:Hres.
    simpl in *. rewrite Hloop, Hres, <- app_assoc. simpl.
    repeat split; try done; [by f_equal | by constructor | by constructor].
Qed.

(** X12. A pipeline whose stages all have a command word runs every
    stage exactly once, from left to right and each with [self.env]: the
    events of the pipeline are, stage by stage and in the order of the
    stages, the call of the stage (its name and arguments resolved with
    its own assignments, a built-in invoked and any other name spawned);
    the first stage reads the inherited input, every later stage reads
    exactly the output of the stage before it, the output of the last
    stage is written to the final output and its exit code is the
    result. *)
Theorem pipeline_data_flow (stages : list Ast.AstNode) (sh : Shell) :
  Forall (fun stage => has_command_word stage = true) stages ->
  stages <> [] ->
  exists evs out code,
    execute_ast (Ast.Pipeline stages) sh
    = (Ok code, {| env := env sh; events := events sh ++ evs ++ [Wrote out] |})
    /\ length evs = length stages
    /\ Forall2 (runs_stage (env sh)) stages evs
    /\ chained process builtin None evs
    /\ chain_result process builtin None 0%Z evs = (Some out, code)
    /\ Forall (fun ev => event_envs ev = Some (env sh)) evs.
Proof.
  intros Hok Hne.
  destruct (pipeline_loop_trace stages Hok None 0%Z sh)
    as (evs & Hloop & Hlen & Hchain & Henvs & Hstages).
  destruct stages as [|stage stages]; [done |].
  destruct evs as [|ev evs]; [done |].
  assert (Hsome : exists out code,
             chain_result process builtin None 0%Z (ev :: evs) = (Some out, code)).
  { simpl. generalize (fst (event_result process builtin ev))
                      (snd (event_result process builtin ev)).
    clear. induction evs as [|ev' evs IH]; intros out code; simpl; eauto. }
  destruct Hsome as (out & code & Hres).
  exists (ev :: evs), out, code.
  cbn [Executor.execute_ast]. rewrite Hloop, Hres. simpl.
  split; [by rewrite <- app_assoc |]. done.
Qed.

(** **** Executing what the parser returns *)

Lemma run_stage_implemented self_env previous_output stage :
  command_shape stage = true ->
  run_stage self_env previous_output stage <> Err Unimplemented
  /\ run_stage self_env previous_output stage <> Err EmptyPipeline.
Proof.
  destruct stage as [|[|w ws] assignments redirects| | |]; try done. intros _.
  unfold Executor.run_stage.
  destruct (is_builtin _).
  - by destruct (builtin _ _ _ _) as [[out code] e].
  - by destruct (process _ _ _ _) as [out code].
Qed.

Lemma pipeline_loop_implemented stages :
  forallb command_shape stages = true ->
  forall previous_output last_exit sh,
    fst (pipeline_loop stages previous_output last_exit sh) <> Err Unimplemented
    /\ fst (pipeline_loop stages previous_output last_exit sh) <> Err EmptyPipeline.
Proof.
  induction stages as [|stage stages IH]; intros Hall previous_output last_exit sh.
  - done.
  - simpl in Hall. apply andb_prop in Hall as [Hstage Hall].
    destruct (run_stage_implemented (env sh) previous_output stage Hstage) as [H1 H2].
    destruct stage as [|[|w ws] assignments redirects| | |]; try done;
      cbn [Executor.pipeline_loop].
    + destruct (wordless_stage _ _ _) as [out code]. by apply IH.
    + destruct (run_stage (env sh) previous_output _) as [[[out code] ev]|e].
      * by apply IH.
      * simpl. split; congruence.
Qed.

Lemma execute_shape ast sh :
  ast_shape ast = true ->
  fst (execute_ast ast sh) <> Err Unimplemented
  /\ fst (execute_ast ast sh) <> Err EmptyPipeline.
Proof.
  destruct ast as [stages|argv assignments redirects| | |]; try done.
  - unfold ast_shape. intros [Hlen Hall]%andb_prop.
    destruct stages as [|stage stages]; [done |].
    cbn [Executor.execute_ast].
    destruct (pipeline_loop_implemented _ Hall None 0%Z sh) as [H1 H2].
    destruct (pipeline_loop (stage :: stages) None 0%Z sh)
      as [[[[out|] code]|e] sh']; simpl in *; split; congruence.
  - intros _. cbn [Executor.execute_ast].
    destruct argv as [|w ws]; [done |].
    by destruct (Executor.run _ _ _ _ _).
Qed.

(** X13. The parser and the executor fit: executing a syntax tree that
    the parser returned never ends in the unimplemented error of the
    other root nodes, nor in the empty-pipeline error. *)
Theorem parsed_ast_is_executable
    (toks : list Tok.Token) (ast : Ast.AstNode) (sh : Shell) :
  Parser.construct_ast toks = Ok ast ->
  fst (execute_ast ast sh) <> Err Unimplemented
  /\ fst (execute_ast ast sh) <> Err EmptyPipeline.
Proof.
  intros Hparse. apply execute_shape.
  by apply (ParserMore.construct_ast_shape toks).
Qed.

End Facts.

Lemma pipeline_data_flow_witness :
  exists evs out code,
    sample_execute
      (Ast.Pipeline [Ast.Command [Ast.Literal "printenv"; Ast.Literal "A"] [] [];
                     Ast.Command [Ast.Literal "grep"; Ast.Literal "x"] [] [];
                     Ast.Command [Ast.Literal "cat"] [] []])
      {| env := <["A" := "21"]> ∅; events := [] |}
    = (Ok code,
       {| env := <["A" := "21"]> ∅; events := [] ++ evs ++ [Wrote out] |})
    /\ length evs = 3
    /\ Forall2 (ExecutorAux.runs_stage sample_command_output (<["A" := "21"]> ∅))
         [Ast.Command [Ast.Literal "printenv"; Ast.Literal "A"] [] [];
          Ast.Command [Ast.Literal "grep"; Ast.Literal "x"] [] [];
          Ast.Command [Ast.Literal "cat"] [] []] evs
    /\ chained sample_process sample_builtin None evs
    /\ chain_result sample_process sample_builtin None 0%Z evs = (Some out, code)
    /\ Forall (fun ev => event_envs ev = Some (<["A" := "21"]> ∅)) evs.
Proof.
  refine (pipeline_data_flow sample_command_output sample_process sample_builtin
            sample_wordless_stage
            [Ast.Command [Ast.Literal "printenv"; Ast.Literal "A"] [] [];
             Ast.Command [Ast.Literal "grep"; Ast.Literal "x"] [] [];
             Ast.Command [Ast.Literal "cat"] [] []]
            {| env := <["A" := "21"]> ∅; events := [] |} _ _).
  - repeat constructor.
  - discriminate.
Defined.

Lemma parsed_ast_is_executable_witness :
  fst (sample_execute
         (Ast.Pipeline [Ast.Command [Ast.Literal "false"] [] [];
                        Ast.Command [Ast.Literal "true"] [] []]) empty_shell)
  <> Err Unimplemented
  /\ fst (sample_execute
            (Ast.Pipeline [Ast.Command [Ast.Literal "false"] [] [];
                           Ast.Command [Ast.Literal "true"] [] []]) empty_shell)
     <> Err EmptyPipeline.
Proof.
  apply (parsed_ast_is_executable sample_command_output sample_process sample_builtin
           sample_wordless_stage
           [Tok.Word [Tok.Literal "false"]; Tok.PipeOp; Tok.Word [Tok.Literal "true"]]).
  reflexivity.
Defined.

Lemma assignments_last_write_wins_witness :
  Executor.apply_assignments sample_command_output
    [Ast.Assignment "A" (Some (Ast.Literal "1")); Ast.Assignment "B" None;
     Ast.Assignment "A" (Some (Ast.Literal "2"))] ∅ !! "A"
  = match last_assigned "A"
            [Ast.Assignment "A" (Some (Ast.Literal "1")); Ast.Assignment "B" None;
             Ast.Assignment "A" (Some (Ast.Literal "2"))] with
    | Some value => Some value
    | None => (∅ : Env) !! "A"
    end.
Proof.
  apply (assignments_last_write_wins sample_command_output
           [Ast.Assignment "A" (Some (Ast.Literal "1")); Ast.Assignment "B" None;
            Ast.Assignment "A" (Some (Ast.Literal "2"))] ∅ "A").
  reflexivity.
Defined.

End ExecutorMore.

(** * From the line to its effect *)

Module EndToEnd.
Import Tok Lexer LexerAux Executor.

Section Facts.

Variable command_output : string -> Env -> string.
Variable process : string -> list string -> Env -> option string -> string * Z.
Variable builtin : string -> list string -> Env -> option string -> string * Z * Env.
Variable wordless_stage : Ast.AstNode -> Env -> option string -> option string * Z.

Abbreviation execute_ast :=
  (Executor.execute_ast command_output process builtin wordless_stage).

(** X14. The line [name=value], for a well-formed name and a plain word
    as value: the lexer gives the three tokens, the parser a command with
    this one assignment and no command word, and the executor returns 0,
    runs nothing and leaves the variable set to the value in the
    environment of the shell. *)
Theorem assignment_line_sets_variable (name value : string) (sh : Shell) :
  valid_identifier name = true ->
  plain_word value = true ->
  let toks := [Word [Literal name]; Equal; Word [Literal value]] in
  let ast := Ast.Command [] [Ast.Assignment name (Some (Ast.Literal value))] [] in
  tokenize (name +:+ String "=" value) = Ok toks
  /\ Parser.construct_ast toks = Ok ast
  /\ execute_ast ast sh
     = (Ok 0%Z, {| env := <[name := value]> (env sh); events := events sh |})
  /\ env (snd (execute_ast ast sh)) !! name = Some value.
Proof.
  intros Hid Hvalue toks ast. split; [| split; [| split]].
  - unfold toks, tokenize. change init with (between_words []).
    rewrite (LexerMore.run_operator [] name "=" Equal value)
      by (done || by apply LexerMore.valid_identifier_plain).
    rewrite <- (LexerFacts.append_nil_r value), LexerFacts.run_plain_word by done.
    rewrite LexerFacts.append_nil_r. by destruct value.
  - unfold toks, Parser.construct_ast, Parser.parse_pipeline.
    cbn [length Parser.parse_commands Parser.parse_command Parser.parse_command_loop].
    unfold Parser.is_assignment. rewrite Hid. reflexivity.
  - reflexivity.
  - simpl. apply lookup_insert_eq.
Qed.

(** X15. A line of blanks only, the empty line included, does nothing: it
    has no tokens, the parser makes of no tokens a command without a
    command word, and the executor returns 0 for it and leaves the shell
    as it was. *)
Theorem blank_line_is_no_op (line : string) (sh : Shell) :
  all_chars is_space line = true ->
  tokenize line = Ok []
  /\ Parser.construct_ast [] = Ok (Ast.Command [] [] [])
  /\ execute_ast (Ast.Command [] [] []) sh = (Ok 0%Z, sh).
Proof.
  intros Hblank. split; [| split].
  - unfold tokenize. rewrite <- (LexerFacts.append_nil_r line).
    change init with (between_words []).
    by rewrite (LexerMore.run_blanks line Hblank [] "").
  - reflexivity.
  - by destruct sh.
Qed.

End Facts.

Lemma assignment_line_sets_variable_witness :
  let toks := [Word [Literal "A"]; Equal; Word [Literal "21"]] in
  let ast := Ast.Command [] [Ast.Assignment "A" (Some (Ast.Literal "21"))] [] in
  tokenize ("A" +:+ String "=" "21") = Ok toks
  /\ Parser.construct_ast toks = Ok ast
  /\ sample_execute ast empty_shell
     = (Ok 0%Z, {| env := <["A" := "21"]> (env empty_shell);
                   events := events empty_shell |})
  /\ env (snd (sample_execute ast empty_shell)) !! "A" = Some "21".
Proof.
  refine (assignment_line_sets_variable sample_command_output sample_process
            sample_builtin sample_wordless_stage "A" "21" empty_shell _ _);
    reflexivity.
Defined.

Lemma blank_line_is_no_op_witness :
  tokenize "  " = Ok []
  /\ Parser.construct_ast [] = Ok (Ast.Command [] [] [])
  /\ sample_execute (Ast.Command [] [] []) empty_shell = (Ok 0%Z, empty_shell).
Proof.
  refine (blank_line_is_no_op sample_command_output sample_process sample_builtin
            sample_wordless_stage "  " empty_shell _).
  reflexivity.
Defined.

End EndToEnd.

(** * Properties of the microwave oven *)

Module MicrowaveFacts.
Import Microwave.

Ltac edges H :=
  unfold transitions, guarded in H; simpl in H;
  repeat match type of H with
         | context [if ?b then _ else _] => destruct b eqn:?
         end;
  simpl in H;
  repeat match type of H with
         | _ ∈ _ :: _ => apply elem_of_cons in H as [H | H]
         | _ ∈ [] => by apply elem_of_nil in H
         end;
  try (injection H as -> ->).

Lemma transition_keeps_door_invariant g edge o o' :
  (edge, o') ∈ transitions g o -> door_invariant o -> door_invariant o'.
Proof.
  intros Hin Hinv. destruct o as [[] d]; unfold door_invariant in *; simpl in *;
    edges Hin; simpl; try done.
  all: repeat match goal with
              | H : _ && _ = true |- _ => apply andb_prop in H as [? ?]
              end; done.
Qed.

Lemma reachable_door_invariant o : reachable o -> door_invariant o.
Proof.
  unfold reachable. intros Hreach.
  refine (rtc_ind_r door_invariant initial _ _ o Hreach); [done |].
  intros o1 o2 _ (g & edge & Hin) Hinv.
  by eapply transition_keeps_door_invariant.
Qed.

(** X16. The oven never cooks with the door open: in every oven reached
    from the initial one, the state [Готовка] has the door closed. *)
Theorem cooking_with_door_closed (o : Oven) :
  reachable o -> state o = Готовка -> дверца_закрыта o = true.
Proof.
  intros Hinv%reachable_door_invariant Hst.
  unfold door_invariant in Hinv. by rewrite Hst in Hinv.
Qed.

Ltac pick_edge :=
  unfold transitions, guarded; simpl;
  repeat first [apply list_elem_of_here | apply list_elem_of_further].

Lemma step_edge g edge o o' : (edge, o') ∈ transitions g o -> step o o'.
Proof. intros H. by exists g, edge. Qed.

Lemma reachable_cooking : reachable (MkOven Готовка true).
Proof.
  unfold reachable.
  eapply rtc_l; [apply (step_edge some_guards "открыть_дверцу"); pick_edge |].
  eapply rtc_l;
    [apply (step_edge some_guards "закрыть_дверцу / поместил_еду"); pick_edge |].
  eapply rtc_l; [| apply rtc_refl].
  apply (step_edge some_guards "старт [режим_выбран & время>0] / запустить_таймер()").
  pick_edge.
Qed.

Lemma cooking_with_door_closed_witness :
  дверца_закрыта (MkOven Готовка true) = true.
Proof.
  apply (cooking_with_door_closed (MkOven Готовка true) reachable_cooking).
  reflexivity.
Defined.

(** X17. Cooking starts only from the choice of the mode or from the
    pause, only with time left on the timer, and, in an oven reached from
    the initial one, only with the door closed. *)
Theorem cooking_starts_guarded (g : Guards) (edge : string) (o o' : Oven) :
  reachable o ->
  (edge, o') ∈ transitions g o ->
  state o' = Готовка ->
  дверца_закрыта o' = true
  /\ 0 < время g
  /\ ((state o = Выбор_Режима /\ режим_выбран g = true) \/ state o = Пауза).
Proof.
  intros Hinv%reachable_door_invariant Hin Hst.
  destruct o as [[] d]; unfold door_invariant in *; simpl in *;
    edges Hin; simpl in *; try done.
  all: repeat match goal with
              | H : _ && _ = true |- _ => apply andb_prop in H as [? ?]
              | H : (0 <? _)%nat = true |- _ => apply Nat.ltb_lt in H
              end; subst; eauto.
Qed.

Lemma reachable_mode_choice : reachable (MkOven Выбор_Режима true).
Proof.
  unfold reachable.
  eapply rtc_l; [apply (step_edge some_guards "открыть_дверцу"); pick_edge |].
  eapply rtc_l; [| apply rtc_refl].
  apply (step_edge some_guards "закрыть_дверцу / поместил_еду"). pick_edge.
Qed.

Lemma cooking_starts_guarded_witness :
  дверца_закрыта (MkOven Готовка true) = true
  /\ 0 < время some_guards
  /\ ((state (MkOven Выбор_Режима true) = Выбор_Режима
       /\ режим_выбран some_guards = true)
      \/ state (MkOven Выбор_Режима true) = Пауза).
Proof.
  apply (cooking_starts_guarded some_guards
           "старт [режим_выбран & время>0] / запустить_таймер()"
           (MkOven Выбор_Режима true) (MkOven Готовка true) reachable_mode_choice).
  - pick_edge.
  - reflexivity.
Defined.

(** X18. No state of the oven is a trap: from every oven the state
    [Ожидание] can be reached again. *)
Theorem waiting_is_always_reachable (o : Oven) :
  exists d, rtc step o (MkOven Ожидание d).
Proof.
  destruct o as [st d]. exists d.
  destruct st, d; first [apply rtc_refl | idtac].
  all: first
    [ eapply rtc_l; [| apply rtc_refl];
      first [ apply (step_edge some_guards "отмена / сброс_настроек"); by pick_edge
            | apply (step_edge some_guards "сброс / подтверждение"); by pick_edge
            | apply (step_edge some_guards "сброс_ошибки / очистить()"); by pick_edge ]
    | eapply rtc_l;
        [apply (step_edge some_guards "показать_ошибку()"); by pick_edge |];
      eapply rtc_l; [| apply rtc_refl];
      apply (step_edge some_guards "сброс_ошибки / очистить()"); by pick_edge
    | eapply rtc_l;
        [apply (step_edge some_guards "таймер = 0 & сигнал()"); by pick_edge |];
      eapply rtc_l; [| apply rtc_refl];
      apply (step_edge some_guards "сброс / подтверждение"); by pick_edge ].
Qed.

End MicrowaveFacts.

(** * Properties of the chat server *)

Module ChatFacts.
Import Chat.

(** **** Delivery *)

Lemma buffer_try_send msg cs ch ch' :
  buffer (try_send msg cs ch) ch'
  = if bool_decide (ch' = ch) && (length (buffer cs ch) <? capacity)%nat
    then buffer cs ch ++ [msg]
    else buffer cs ch'.
Proof.
  unfold try_send. destruct (length (buffer cs ch) <? capacity)%nat eqn:Hlen.
  - unfold buffer at 1. case_bool_decide as Heq; simpl.
    + subst. by rewrite lookup_insert_eq.
    + by rewrite lookup_insert_ne.
  - by rewrite andb_false_r.
Qed.

Lemma buffer_fold_try_send msg chs :
  NoDup chs ->
  forall cs ch,
    buffer (fold_left (try_send msg) chs cs) ch
    = if bool_decide (ch ∈ chs) && (length (buffer cs ch) <? capacity)%nat
      then buffer cs ch ++ [msg]
      else buffer cs ch.
Proof.
  induction 1 as [|c chs Hnotin Hnodup IH]; intros cs ch; [done |].
  simpl. rewrite IH, !buffer_try_send.
  destruct (decide (ch = c)) as [-> | Hne].
  - rewrite (bool_decide_eq_false_2 (c ∈ chs)) by done.
    rewrite (bool_decide_eq_true_2 (c ∈ c :: chs)) by left.
    by rewrite bool_decide_eq_true_2.
  - rewrite (bool_decide_eq_false_2 (ch = c)) by done. simpl.
    destruct (decide (ch ∈ chs)) as [Hin | Hnin].
    + rewrite !bool_decide_eq_true_2; [done | by right | done].
    + rewrite !bool_decide_eq_false_2; [done | | done].
      by intros [? | ?]%elem_of_cons.
Qed.

(** X19. [Send] with a room: the response is ok, without error, with the
    time of the call, and the message (same room and text, the sender
    given or [anonymous], never empty) is appended to the buffer of every
    subscriber of the room whose buffer is not full; a full buffer drops
    it, and the channels subscribed to other rooms only are untouched. The
    table of subscribers and [rooms] stay as they were. *)
Theorem Send_delivers (now : Timestamp) (inserted : option (option Z))
    (req : SendRequest) (s : server) :
  req_Room req <> "" ->
  NoDup (subscribers s (req_Room req)) ->
  exists msg,
    Send now inserted (Some req) s
    = ({| resp_Ok := true; resp_Id := Id msg; resp_Error := ""; resp_Ts := Some now |},
       None,
       {| rooms := rooms s; subs := subs s;
          chans := chans (Send now inserted (Some req) s).2 |})
    /\ Room msg = req_Room req
    /\ Text msg = req_Text req
    /\ Ts msg = Some now
    /\ Sender msg = (if String.eqb (req_Sender req) "" then "anonymous"
                     else req_Sender req)
    /\ Sender msg <> ""
    /\ forall ch,
         buffer (chans (Send now inserted (Some req) s).2) ch
         = if bool_decide (ch ∈ subscribers s (req_Room req))
              && (length (buffer (chans s) ch) <? capacity)%nat
           then buffer (chans s) ch ++ [msg]
           else buffer (chans s) ch.
Proof.
  intros Hroom Hnodup. unfold Send.
  destruct (String.eqb_spec (req_Room req) "") as [? | _]; [done |].
  exists (message now inserted req). simpl.
  repeat split.
  - by destruct (String.eqb_spec (req_Sender req) "").
  - intros ch. by apply buffer_fold_try_send.
Qed.

Lemma Send_delivers_witness :
  exists msg,
    Send (MkTimestamp 100 5) (Some (Some 7%Z))
      (Some (MkSendRequest "general" "" "hi"))
      {| rooms := ∅; subs := {["general" := [1; 2]]}; chans := ∅ |}
    = ({| resp_Ok := true; resp_Id := Id msg; resp_Error := "";
          resp_Ts := Some (MkTimestamp 100 5) |},
       None,
       {| rooms := ∅; subs := {["general" := [1; 2]]};
          chans := chans (Send (MkTimestamp 100 5) (Some (Some 7%Z))
                            (Some (MkSendRequest "general" "" "hi"))
                            {| rooms := ∅; subs := {["general" := [1; 2]]};
                               chans := ∅ |}).2 |})
    /\ Room msg = "general"
    /\ Text msg = "hi"
    /\ Ts msg = Some (MkTimestamp 100 5)
    /\ Sender msg = (if String.eqb "" "" then "anonymous" else "")
    /\ Sender msg <> ""
    /\ forall ch,
         buffer (chans (Send (MkTimestamp 100 5) (Some (Some 7%Z))
                          (Some (MkSendRequest "general" "" "hi"))
                          {| rooms := ∅; subs := {["general" := [1; 2]]};
                             chans := ∅ |}).2) ch
         = if bool_decide
                (ch ∈ subscribers
                        {| rooms := ∅; subs := {["general" := [1; 2]]}; chans := ∅ |}
                        "general")
              && (length (buffer (∅ : gmap nat (list ChatMessage)) ch) <? capacity)%nat
           then buffer (∅ : gmap nat (list ChatMessage)) ch ++ [msg]
           else buffer (∅ : gmap nat (list ChatMessage)) ch.
Proof.
  refine (Send_delivers (MkTimestamp 100 5) (Some (Some 7%Z))
            (MkSendRequest "general" "" "hi")
            {| rooms := ∅; subs := {["general" := [1; 2]]}; chans := ∅ |} _ _).
  - discriminate.
  - change (NoDup [1; 2]). apply NoDup_cons. split.
    + by intros [=]%list_elem_of_singleton.
    + apply NoDup_singleton.
Defined.

(** **** What a running server keeps *)

Lemma subscribers_insert_eq room chs s_subs s_rooms s_chans :
  subscribers {| rooms := s_rooms; subs := <[room := chs]> s_subs; chans := s_chans |} room
  = chs.
Proof. unfold subscribers. simpl. by rewrite lookup_insert_eq. Qed.

Lemma remove_first_notin ch chs : ch ∉ chs -> remove_first ch chs = chs.
Proof.
  induction chs as [|c chs IH]; [done |]. intros Hnotin. simpl.
  destruct (Nat.eqb_spec c ch) as [-> | Hne].
  - exfalso. apply Hnotin. left.
  - f_equal. apply IH. intros Hin. apply Hnotin. by right.
Qed.

Lemma remove_first_app ch chs : ch ∉ chs -> remove_first ch (chs ++ [ch]) = chs.
Proof.
  induction chs as [|c chs IH]; intros Hnotin; simpl.
  - by rewrite Nat.eqb_refl.
  - destruct (Nat.eqb_spec c ch) as [-> | Hne].
    + exfalso. apply Hnotin. left.
    + f_equal. apply IH. intros Hin. apply Hnotin. by right.
Qed.

Lemma remove_first_subseteq ch chs : remove_first ch chs ⊆ chs.
Proof.
  induction chs as [|c chs IH]; [done |]. simpl.
  destruct (Nat.eqb c ch).
  - intros x Hx. by right.
  - intros x [-> | Hx]%elem_of_cons; [left | right; by apply IH].
Qed.

Lemma remove_first_NoDup ch chs : NoDup chs -> NoDup (remove_first ch chs).
Proof.
  induction 1 as [|c chs Hnotin Hnodup IH]; simpl; [constructor |].
  destruct (Nat.eqb c ch); [done |]. constructor; [| done].
  intros Hin. apply Hnotin. by apply (remove_first_subseteq ch).
Qed.

Lemma Send_well_kept now inserted req s :
  well_kept s -> well_kept (Send now inserted req s).2.
Proof.
  intros (Hrooms & Hsubs & Hnodup & Hcap). unfold Send.
  destruct req as [req|]; [| done].
  destruct (String.eqb (req_Room req) ""); [done |].
  repeat split; simpl; try done.
  intros ch. rewrite buffer_fold_try_send by apply Hnodup.
  destruct (length (buffer (chans s) ch) <? capacity)%nat eqn:Hlen.
  - apply Nat.ltb_lt in Hlen. destruct (bool_decide _); simpl; [| apply Hcap].
    rewrite length_app. simpl. lia.
  - rewrite andb_false_r. apply Hcap.
Qed.

Lemma subscribe_well_kept ch req s s' :
  well_kept s ->
  (forall room, ch ∉ subscribers s room) ->
  subscribe ch req s = Ok s' -> well_kept s'.
Proof.
  intros (Hrooms & Hsubs & Hnodup & Hcap) Hfresh. unfold subscribe.
  destruct req as [req|]; [| done].
  destruct (String.eqb (sub_Room req) ""); [done |]. intros [= <-].
  repeat split; simpl; try done.
  - intros room. destruct (decide (sub_Room req = room)) as [<- | Hne].
    + rewrite lookup_insert_eq. intros [= Heq]. by destruct (subscribers s _).
    + rewrite lookup_insert_ne by done. apply Hsubs.
  - intros room. unfold subscribers at 1. simpl.
    destruct (decide (sub_Room req = room)) as [<- | Hne].
    + rewrite lookup_insert_eq. simpl. apply NoDup_app. repeat split.
      * apply Hnodup.
      * intros c Hin ->%list_elem_of_singleton. by apply (Hfresh (sub_Room req)).
      * apply NoDup_singleton.
    + rewrite lookup_insert_ne by done. apply Hnodup.
Qed.

Lemma remove_well_kept room ch s : well_kept s -> well_kept (remove room ch s).
Proof.
  intros (Hrooms & Hsubs & Hnodup & Hcap). unfold remove.
  pose proof (remove_first_NoDup ch _ (Hnodup room)) as Hnd.
  destruct (remove_first ch (subscribers s room)) as [|c chs] eqn:Hrem;
    repeat split; simpl; try done.
  - intros r. destruct (decide (room = r)) as [<- | Hne].
    + by rewrite lookup_delete_eq.
    + rewrite lookup_delete_ne by done. apply Hsubs.
  - intros r. unfold subscribers at 1. simpl.
    destruct (decide (room = r)) as [<- | Hne].
    + rewrite lookup_delete_eq. constructor.
    + rewrite lookup_delete_ne by done. apply Hnodup.
  - intros r. destruct (decide (room = r)) as [<- | Hne].
    + by rewrite lookup_insert_eq.
    + rewrite lookup_insert_ne by done. apply Hsubs.
  - intros r. unfold subscribers at 1. simpl.
    destruct (decide (room = r)) as [<- | Hne].
    + by rewrite lookup_insert_eq.
    + rewrite lookup_insert_ne by done. apply Hnodup.
Qed.

Lemma receive_well_kept ch s : well_kept s -> well_kept (receive ch s).2.
Proof.
  intros (Hrooms & Hsubs & Hnodup & Hcap). unfold receive.
  destruct (buffer (chans s) ch) as [|m rest] eqn:Hbuf; [done |].
  repeat split; simpl; try done.
  intros c. unfold buffer at 1. destruct (decide (ch = c)) as [<- | Hne].
  - rewrite lookup_insert_eq. simpl. specialize (Hcap ch). rewrite Hbuf in Hcap.
    simpl in Hcap. lia.
  - rewrite lookup_insert_ne by done. apply Hcap.
Qed.

Lemma running_well_kept s : running s -> well_kept s.
Proof.
  induction 1 as [|now inserted req s _ IH|ch req s s' _ IH Hfresh _ Hsub
                  |ch s _ IH|room ch s _ IH].
  - repeat split; try done.
    + intros room. unfold subscribers. simpl. rewrite lookup_empty. constructor.
    + intros ch. unfold buffer. simpl. rewrite lookup_empty. simpl. unfold capacity. lia.
  - by apply Send_well_kept.
  - by eapply subscribe_well_kept.
  - by apply receive_well_kept.
  - by apply remove_well_kept.
Qed.

(** X20. Whatever [Send], the subscriptions of [Notify], the receiving
    in its loop and [remove()] did to a server since [NewServer]: nothing
    was ever stored
    in [rooms], no room is kept in the table without a subscriber, no
    channel is subscribed twice to a room, and no channel buffer holds more
    than 16 messages. *)
Theorem running_server_is_well_kept (s : server) :
  running s ->
  rooms s = ∅
  /\ (forall room, subs s !! room <> Some [])
  /\ (forall room, NoDup (subscribers s room))
  /\ (forall ch, length (buffer (chans s) ch) <= 16).
Proof. apply running_well_kept. Qed.

Lemma running_example :
  running (Send (MkTimestamp 100 5) None (Some (MkSendRequest "general" "bob" "hi"))
             {| rooms := ∅; subs := {["general" := [1]]}; chans := ∅ |}).2.
Proof.
  apply running_send.
  apply (running_subscribe 1 (Some (MkSubscribeRequest "general" "" None)) NewServer).
  - apply running_new.
  - intros room. unfold subscribers. simpl. rewrite lookup_empty. apply not_elem_of_nil.
  - reflexivity.
  - reflexivity.
Qed.

Lemma running_server_is_well_kept_witness :
  let s := (Send (MkTimestamp 100 5) None (Some (MkSendRequest "general" "bob" "hi"))
              {| rooms := ∅; subs := {["general" := [1]]}; chans := ∅ |}).2 in
  rooms s = ∅
  /\ (forall room, subs s !! room <> Some [])
  /\ (forall room, NoDup (subscribers s room))
  /\ (forall ch, length (buffer (chans s) ch) <= 16).
Proof. exact (running_server_is_well_kept _ running_example). Defined.

(** X21. A server without database never replays anything: [Notify]
    then reads the history from [rooms], which no operation fills, so that
    a subscriber gets no message sent before it subscribed, whatever its
    request. *)
Theorem no_history_without_database (s : server) (req : SubscribeRequest) :
  running s -> replay req (history None s (sub_Room req)) = [].
Proof.
  intros (Hrooms & _)%running_well_kept. unfold history.
  rewrite Hrooms, lookup_empty. unfold replay. simpl. by rewrite drop_nil.
Qed.

Lemma no_history_without_database_witness :
  replay (MkSubscribeRequest "general" "" None)
    (history None
       (Send (MkTimestamp 100 5) None (Some (MkSendRequest "general" "bob" "hi"))
          {| rooms := ∅; subs := {["general" := [1]]}; chans := ∅ |}).2
       (sub_Room (MkSubscribeRequest "general" "" None)))
  = [].
Proof.
  exact (no_history_without_database _ (MkSubscribeRequest "general" "" None)
           running_example).
Defined.

(** X22. Subscribing and unsubscribing cancel out: on a running server,
    after [Notify] has appended its new channel to the subscribers of a
    room and [remove()] has taken it out again, the server is exactly what
    it was, also when the channel was the only subscriber of the room. *)
Theorem subscribe_then_remove (ch : nat) (req : SubscribeRequest) (s s' : server) :
  running s ->
  ch ∉ subscribers s (sub_Room req) ->
  subscribe ch (Some req) s = Ok s' ->
  remove (sub_Room req) ch s' = s.
Proof.
  intros (_ & Hsubs & _)%running_well_kept Hfresh. unfold subscribe.
  destruct (String.eqb (sub_Room req) ""); [done |]. intros [= <-].
  unfold remove. rewrite subscribers_insert_eq, remove_first_app by done. simpl.
  destruct s as [s_rooms s_subs s_chans]. simpl in *. f_equal.
  unfold subscribers in *. simpl in *.
  destruct (s_subs !! sub_Room req) as [[|c chs]|] eqn:Hlook; simpl.
  - by destruct (Hsubs (sub_Room req)).
  - rewrite insert_insert_eq. by apply insert_id.
  - by apply delete_insert_id.
Qed.

Lemma subscribe_then_remove_witness :
  remove (sub_Room (MkSubscribeRequest "general" "" None)) 1
    {| rooms := ∅; subs := {["general" := [1]]}; chans := ∅ |}
  = NewServer.
Proof.
  refine (subscribe_then_remove 1 (MkSubscribeRequest "general" "" None) NewServer
            {| rooms := ∅; subs := {["general" := [1]]}; chans := ∅ |}
            running_new _ _).
  - unfold subscribers. simpl. rewrite lookup_empty. apply not_elem_of_nil.
  - reflexivity.
Defined.

(** **** A run of calls of [Send] *)

Lemma Send_subscribers now inserted req s room :
  subscribers (Send now inserted req s).2 room = subscribers s room.
Proof.
  unfold Send. destruct req as [req|]; [| done].
  by destruct (String.eqb (req_Room req) "").
Qed.

Lemma Send_buffer now inserted req s ch :
  NoDup (subscribers s (req_Room req)) ->
  buffer (chans (Send now inserted (Some req) s).2) ch
  = if negb (String.eqb (req_Room req) "")
       && bool_decide (ch ∈ subscribers s (req_Room req))
       && (length (buffer (chans s) ch) <? capacity)%nat
    then buffer (chans s) ch ++ [message now inserted req]
    else buffer (chans s) ch.
Proof.
  intros Hnodup. unfold Send.
  destruct (String.eqb (req_Room req) ""); [done |]. simpl.
  by apply buffer_fold_try_send.
Qed.

Lemma run_sends_buffer r ch calls :
  r <> "" ->
  forall s,
    (forall room, NoDup (subscribers s room)) ->
    (forall room, ch ∈ subscribers s room <-> room = r) ->
    length (buffer (chans s) ch) <= capacity ->
    buffer (chans (run_sends calls s)) ch
    = take capacity (buffer (chans s) ch ++ sent_to r calls).
Proof.
  intros Hr. induction calls as [|[[now inserted] req] calls IH];
    intros s Hnodup Hch Hcap; cbn [run_sends sent_to].
  - rewrite app_nil_r. by rewrite take_ge.
  - rewrite IH.
    + rewrite Send_buffer by apply Hnodup.
      destruct (String.eqb_spec (req_Room req) r) as [Heq | Hne].
      * rewrite (bool_decide_eq_true_2 _) by by apply Hch.
        destruct (String.eqb_spec (req_Room req) "") as [? | _]; [congruence |].
        simpl. destruct (Nat.ltb_spec (length (buffer (chans s) ch)) capacity).
        -- by rewrite <- app_assoc.
        -- by rewrite !take_app_le by lia.
      * rewrite (bool_decide_eq_false_2 _) by (by intros ?%Hch).
        by rewrite andb_false_r.
    + intros room. rewrite Send_subscribers. apply Hnodup.
    + intros room. rewrite Send_subscribers. apply Hch.
    + rewrite Send_buffer by apply Hnodup.
      destruct (_ && _ && (length (buffer (chans s) ch) <? capacity)%nat) eqn:Hb;
        [| done].
      apply andb_true_iff in Hb as [_ Hlt%Nat.ltb_lt].
      rewrite length_app. simpl. lia.
Qed.

(** X25. The messages of a room reach a subscriber in the order of the
    calls of [Send]: after a run of calls, the buffer of a channel
    subscribed to the room holds what it held before, followed by the
    messages sent to this room, in order, cut after 16 messages; the
    messages sent to other rooms never enter it, and the messages that
    find the buffer full are lost, not the older ones. *)
Theorem sends_arrive_in_order (r : string) (ch : nat)
    (calls : list (Timestamp * option (option Z) * SendRequest)) (s : server) :
  r <> "" ->
  (forall room, NoDup (subscribers s room)) ->
  (forall room, ch ∈ subscribers s room <-> room = r) ->
  length (buffer (chans s) ch) <= 16 ->
  buffer (chans (run_sends calls s)) ch
  = take 16 (buffer (chans s) ch ++ sent_to r calls).
Proof. intros Hr Hnodup Hch Hcap. by apply run_sends_buffer. Qed.

Lemma sends_arrive_in_order_witness :
  let s := {| rooms := ∅; subs := {["general" := [1]]}; chans := ∅ |} in
  let calls :=
    [(MkTimestamp 100 5, None, MkSendRequest "general" "bob" "hi");
     (MkTimestamp 101 0, None, MkSendRequest "other" "eve" "psst");
     (MkTimestamp 102 7, None, MkSendRequest "general" "" "bye")] in
  buffer (chans (run_sends calls s)) 1
  = take 16 (buffer (chans s) 1 ++ sent_to "general" calls).
Proof.
  refine (sends_arrive_in_order "general" 1 _
            {| rooms := ∅; subs := {["general" := [1]]}; chans := ∅ |} _ _ _ _).
  - discriminate.
  - intros room. unfold subscribers. simpl.
    destruct (decide (room = "general")) as [-> | Hne].
    + rewrite lookup_singleton_eq. apply NoDup_singleton.
    + rewrite lookup_singleton_ne by done. constructor.
  - intros room. unfold subscribers. simpl.
    destruct (decide (room = "general")) as [-> | Hne].
    + rewrite lookup_singleton_eq. simpl. split; [done | intros _; left].
    + rewrite lookup_singleton_ne by done. simpl. split; [| done].
      by intros ?%elem_of_nil.
  - unfold buffer. simpl. rewrite lookup_empty. simpl. lia.
Defined.

(** **** The replay of the history *)

Lemma start_after_none since_id past :
  Forall (fun m => Id m <> since_id) past ->
  forall i, start_after since_id i past = 0.
Proof.
  induction 1 as [|m past Hm _ IH]; intros i; [done |]. simpl.
  by destruct (String.eqb_spec (Id m) since_id).
Qed.

Lemma start_after_found since_id before m after :
  Forall (fun x => Id x <> since_id) before ->
  Id m = since_id ->
  forall i, start_after since_id i (before ++ m :: after) = S (i + length before).
Proof.
  intros Hbefore Hm. induction Hbefore as [|x before Hx _ IH]; intros i; simpl.
  - destruct (String.eqb_spec (Id m) since_id); [f_equal; lia | done].
  - destruct (String.eqb_spec (Id x) since_id); [done |]. rewrite IH. lia.
Qed.

Lemma filter_sublist {A} (p : A -> bool) (l : list A) : sublist (List.filter p l) l.
Proof.
  induction l as [|x l IH]; simpl; [constructor |].
  destruct (p x); by constructor.
Qed.

(** X23. What [Notify] replays: always a sublist of the history, in its
    order. Without [SinceId], or with one that no message of the history
    has, it is the whole history that goes through the filter on [Since];
    with the id of a message, it is what follows the first message with
    this id. *)
Theorem replay_since_id (req : SubscribeRequest) (past : list ChatMessage) :
  sublist (replay req past) past
  /\ (SinceId req = "" \/ Forall (fun m => Id m <> SinceId req) past ->
      replay req past = List.filter (passes_since (Since req)) past)
  /\ (forall before m after,
        SinceId req <> "" ->
        past = before ++ m :: after ->
        Forall (fun x => Id x <> SinceId req) before ->
        Id m = SinceId req ->
        replay req past = List.filter (passes_since (Since req)) after).
Proof.
  unfold replay, start_index. split; [| split].
  - etrans; [apply filter_sublist | apply sublist_drop].
  - intros [Hnone | Hall].
    + by rewrite Hnone.
    + rewrite start_after_none by done. by destruct (String.eqb _ _).
  - intros before m after Hid -> Hbefore Hm.
    destruct (String.eqb_spec (SinceId req) ""); [done |].
    rewrite start_after_found by done.
    rewrite cons_middle, app_assoc.
    rewrite drop_app_length'; [done |]. rewrite length_app. simpl. lia.
Qed.

Lemma replay_since_id_witness :
  let past := [MkChatMessage "1" "r" "a" "x" None; MkChatMessage "2" "r" "b" "y" None;
               MkChatMessage "3" "r" "c" "z" None] in
  replay (MkSubscribeRequest "r" "2" None) past
  = List.filter (passes_since None) [MkChatMessage "3" "r" "c" "z" None].
Proof.
  refine (proj2 (proj2 (replay_since_id (MkSubscribeRequest "r" "2" None) _))
            [MkChatMessage "1" "r" "a" "x" None] (MkChatMessage "2" "r" "b" "y" None)
            [MkChatMessage "3" "r" "c" "z" None] _ eq_refl _ eq_refl).
  - discriminate.
  - repeat constructor. discriminate.
Defined.

(** **** Timestamps *)

Lemma wrap64_small z : (- 2 ^ 63 <= z < 2 ^ 63)%Z -> wrap64 z = z.
Proof. intros Hz. unfold wrap64. rewrite Z.mod_small; lia. Qed.

Lemma Unix_normal sec nsec :
  (- 2 ^ 62 <= sec <= 2 ^ 62)%Z ->
  (- 2 ^ 31 <= nsec < 2 ^ 31)%Z ->
  exists s n,
    Unix sec nsec = {| ext := s + unixToInternal; nsec := n |}
    /\ (0 <= n < 10 ^ 9)%Z
    /\ (s * 10 ^ 9 + n = sec * 10 ^ 9 + nsec)%Z.
Proof.
  intros Hsec Hnsec. unfold Unix, unixToInternal.
  destruct ((nsec <? 0) || (10 ^ 9 <=? nsec))%Z eqn:Hout.
  - pose proof (Z.quot_rem' nsec (10 ^ 9)) as Hqr.
    assert (Hq : (-3 <= nsec ÷ 10 ^ 9 <= 3)%Z).
    { split.
      - apply Z.quot_le_lower_bound; lia.
      - apply Z.quot_le_upper_bound; lia. }
    assert (Hr : (- 10 ^ 9 < Z.rem nsec (10 ^ 9) < 10 ^ 9)%Z).
    { pose proof (Z.rem_bound_abs nsec (10 ^ 9)). lia. }
    set (q := (nsec ÷ 10 ^ 9)%Z) in *.
    replace (nsec - q * 10 ^ 9)%Z with (Z.rem nsec (10 ^ 9)) by lia.
    rewrite (wrap64_small (sec + q)) by lia.
    destruct (Z.rem nsec (10 ^ 9) <? 0)%Z eqn:Hneg.
    + apply Z.ltb_lt in Hneg.
      rewrite (wrap64_small (sec + q - 1)) by lia.
      rewrite wrap64_small by lia.
      exists (sec + q - 1)%Z, (Z.rem nsec (10 ^ 9) + 10 ^ 9)%Z.
      repeat split; lia.
    + apply Z.ltb_ge in Hneg.
      rewrite wrap64_small by lia.
      exists (sec + q)%Z, (Z.rem nsec (10 ^ 9)). repeat split; lia.
  - apply orb_false_elim in Hout as [H1%Z.ltb_ge H2%Z.leb_gt].
    rewrite wrap64_small by lia.
    exists sec, nsec. repeat split; lia.
Qed.

Lemma After_instant ts st :
  in_range ts -> in_range st ->
  After (time_of ts) (time_of st) = true <-> (instant st < instant ts)%Z.
Proof.
  intros [Hs1 Hn1] [Hs2 Hn2]. unfold time_of, instant.
  destruct (Unix_normal _ _ Hs1 Hn1) as (s1 & n1 & -> & Hb1 & He1).
  destruct (Unix_normal _ _ Hs2 Hn2) as (s2 & n2 & -> & Hb2 & He2).
  unfold After. simpl.
  rewrite orb_true_iff, andb_true_iff, !Z.ltb_lt, Z.eqb_eq. lia.
Qed.

(** X24. The filter on [Since], for timestamps in range (seconds within
    2^62 of 1970, nanoseconds any int32, also negative or beyond a
    second): a message is replayed exactly when it comes after the first
    message with [SinceId], has a timestamp, and the instant of that
    timestamp is strictly later than the instant of [Since]. A message
    without timestamp, or at the very instant of [Since], is skipped. *)
Theorem replay_since_instant
    (req : SubscribeRequest) (st : Timestamp) (past : list ChatMessage) :
  Since req = Some st ->
  in_range st ->
  (forall m ts, m ∈ past -> Ts m = Some ts -> in_range ts) ->
  forall m,
    m ∈ replay req past
    <-> m ∈ drop (start_index req past) past
        /\ exists ts, Ts m = Some ts /\ (instant st < instant ts)%Z.
Proof.
  intros Hsince Hst Hpast m. unfold replay. rewrite Hsince.
  rewrite list_elem_of_In, filter_In, <- list_elem_of_In.
  split; intros [Hin Hpass]; (split; [done |]).
  - simpl in Hpass. destruct (Ts m) as [ts|] eqn:Hts; [| done].
    exists ts. split; [done |]. apply After_instant; try done.
    apply (Hpast m); [| done]. by eapply subseteq_drop.
  - destruct Hpass as (ts & Hts & Hlater). simpl. rewrite Hts.
    apply After_instant; try done.
    apply (Hpast m); [| done]. by eapply subseteq_drop.
Qed.

Lemma replay_since_instant_witness :
  let early := MkChatMessage "1" "r" "a" "x" (Some (MkTimestamp 9 2000000000)) in
  let same := MkChatMessage "2" "r" "b" "y" (Some (MkTimestamp 11 0)) in
  let late := MkChatMessage "3" "r" "c" "z" (Some (MkTimestamp 12 (-1))) in
  let req := MkSubscribeRequest "r" "" (Some (MkTimestamp 10 1000000000)) in
  late ∈ replay req [early; same; late]
  <-> late ∈ drop (start_index req [early; same; late]) [early; same; late]
      /\ exists ts, Ts late = Some ts
                    /\ (instant (MkTimestamp 10 1000000000) < instant ts)%Z.
Proof.
  refine (replay_since_instant
            (MkSubscribeRequest "r" "" (Some (MkTimestamp 10 1000000000)))
            (MkTimestamp 10 1000000000) _ eq_refl _ _ _).
  - unfold in_range. simpl. lia.
  - intros m ts Hin Hts. unfold in_range.
    repeat (apply elem_of_cons in Hin as [-> | Hin]);
      [..| by apply elem_of_nil in Hin];
      injection Hts as <-; simpl; lia.
Defined.

Example replay_around_since :
  replay (MkSubscribeRequest "r" "" (Some (MkTimestamp 10 1000000000)))
    [MkChatMessage "1" "r" "a" "x" (Some (MkTimestamp 9 2000000000));
     MkChatMessage "2" "r" "b" "y" (Some (MkTimestamp 11 0));
     MkChatMessage "0" "r" "d" "w" None;
     MkChatMessage "3" "r" "c" "z" (Some (MkTimestamp 12 (-1)))]
  = [MkChatMessage "3" "r" "c" "z" (Some (MkTimestamp 12 (-1)))].
Proof. vm_compute. reflexivity. Qed.

End ChatFacts.
